(** * Interval timer: the worker-hosted countdown clock and the audio service

    A shallow embedding of the timing core ([WORKER_CODE] of the App
    component) and of [AudioService.ensureContextReady] with the sound-playing
    operations built on it, followed by the properties of the specification
    that concern them.

    Numbers.  The worker's fields are JavaScript numbers, that is IEEE 754
    doubles.  Every value the App hands to the worker comes from [parseInt]
    (or is a literal), so it is an integer, and the worker is modelled over
    [Z].  The operations it uses ([--], [++], [* 60], [- 1]) are exact on
    doubles as long as operands and results stay within
    [Double.MAX_SAFE_INTEGER], 2^53 - 1; beyond it a result is rounded
    ([Double.round]), and [Engine] gives the worker's arithmetic with the
    rounding written out.  A property that depends on the exact value of a
    result therefore carries the bound [Double.safe] on the numbers involved;
    [EngineSpec] shows that within the bound the model over [Z] and the
    rounded arithmetic agree.

    Calls of the audio service.  [ensureContextReady] and the sound
    operations are asynchronous; the model runs one invocation from start to
    end, the platform's answers given by an oracle.  What is proved about
    them is about an invocation that no other invocation of the service
    overlaps.  [Overlap] cuts [ensureContextReady] at its [await]s, so that
    invocations can interleave; [AudioMoreSpec.alone_is_ensureContextReady]
    shows that an invocation left alone does what the model run from start
    to end does.

    Messages.  [postMessage] makes a structured clone of its argument, so a
    posted event carries a snapshot of [state] at the time of the call. *)

From Stdlib Require Import ZArith List Bool Lia PArith.
Import ListNotations.
Open Scope Z_scope.

(** ** JavaScript numbers that hold integers *)

Module Double.

(** [Number.MAX_SAFE_INTEGER], 2^53 - 1. *)
Definition MAX_SAFE_INTEGER : Z := 9007199254740991.

(** The integers on which [x - 1] and [x + 1] are computed exactly. *)
Definition safe (x : Z) : Prop :=
  - MAX_SAFE_INTEGER <= x <= MAX_SAFE_INTEGER.

(** The double nearest to the integer [x], a tie going to the even
    significand (round-to-nearest-even with 53 significant bits); exact up
    to 2^53 in magnitude.  Magnitudes of 2^1024 and more, which a double
    turns into an infinity, are outside the model. *)
Definition round (x : Z) : Z :=
  let a := Z.abs x in
  if a <=? 2 ^ 53 then x
  else
    let e := Z.log2 a - 52 in
    let q := a / 2 ^ e in
    let r := a mod 2 ^ e in
    let half := 2 ^ (e - 1) in
    let q' := if r <? half then q
              else if half <? r then q + 1
              else if Z.even q then q else q + 1 in
    Z.sgn x * (q' * 2 ^ e).

End Double.

(** ** The worker *)

Module Worker.

(** [payload] of CONFIGURE and INIT_STATE. *)
Record Payload := mkPayload {
  p_intervalLength : Z;
  p_totalDuration : Z
}.

(** The worker's [state] object. *)
Record State := mkState {
  currentIntervalTime : Z;
  totalTimeRemaining : Z;
  intervalsCompleted : Z;
  intervalLength : Z;
  totalDuration : Z
}.

(** [e.data] of a message received by [self.onmessage]; a [type] outside
    the five cases of the switch leaves the worker untouched and is not
    modelled. *)
Inductive Request :=
| CONFIGURE (payload : Payload)
| INIT_STATE (payload : Payload)
| START
| PAUSE
| RESET.

(** [type] of a message posted by the worker. *)
Inductive EventType := TICK | COMPLETED | COUNTDOWN | INTERVAL_END.

Definition EventType_eqb (a b : EventType) : bool :=
  match a, b with
  | TICK, TICK | COMPLETED, COMPLETED
  | COUNTDOWN, COUNTDOWN | INTERVAL_END, INTERVAL_END => true
  | _, _ => false
  end.

(** [{ type, state }] as received by the page. *)
Record Posted := mkPosted {
  type : EventType;
  snapshot : State
}.

(** The worker's global scope: the two top-level variables, the interval
    timers the platform currently runs for it ([setInterval] handles are
    positive integers), and the messages posted so far, oldest first. *)
Record World := mkWorld {
  state : State;
  timerId : option positive;
  timers : list positive;
  nextHandle : positive;
  outbox : list Posted
}.

Definition initial : World :=
  {| state := {| currentIntervalTime := 0;
                 totalTimeRemaining := 0;
                 intervalsCompleted := 0;
                 intervalLength := 60;
                 totalDuration := 20 |};
     timerId := None;
     timers := [];
     nextHandle := 1%positive;
     outbox := [] |}.

(** *** Field assignments *)

Definition set_currentIntervalTime (v : Z) (s : State) : State :=
  mkState v (totalTimeRemaining s) (intervalsCompleted s)
          (intervalLength s) (totalDuration s).

Definition set_totalTimeRemaining (v : Z) (s : State) : State :=
  mkState (currentIntervalTime s) v (intervalsCompleted s)
          (intervalLength s) (totalDuration s).

Definition set_intervalsCompleted (v : Z) (s : State) : State :=
  mkState (currentIntervalTime s) (totalTimeRemaining s) v
          (intervalLength s) (totalDuration s).

Definition set_intervalLength (v : Z) (s : State) : State :=
  mkState (currentIntervalTime s) (totalTimeRemaining s)
          (intervalsCompleted s) v (totalDuration s).

Definition set_totalDuration (v : Z) (s : State) : State :=
  mkState (currentIntervalTime s) (totalTimeRemaining s)
          (intervalsCompleted s) (intervalLength s) v.

Definition with_state (f : State -> State) (w : World) : World :=
  mkWorld (f (state w)) (timerId w) (timers w) (nextHandle w) (outbox w).

Definition set_timerId (t : option positive) (w : World) : World :=
  mkWorld (state w) t (timers w) (nextHandle w) (outbox w).

(** *** Platform calls *)

(** [setInterval(tick, 1000)]: a new timer under a fresh handle. *)
Definition setInterval (w : World) : positive * World :=
  (nextHandle w,
   mkWorld (state w) (timerId w) (timers w ++ [nextHandle w])
           (Pos.succ (nextHandle w)) (outbox w)).

(** [clearInterval(id)]: cancels the timer with that handle; [null] or an
    unknown handle is ignored. *)
Definition clearInterval (id : option positive) (w : World) : World :=
  match id with
  | Some h =>
      mkWorld (state w) (timerId w)
              (filter (fun k => negb (Pos.eqb k h)) (timers w))
              (nextHandle w) (outbox w)
  | None => w
  end.

(** [self.postMessage({ type, state })]. *)
Definition postMessage (t : EventType) (w : World) : World :=
  mkWorld (state w) (timerId w) (timers w) (nextHandle w)
          (outbox w ++ [mkPosted t (state w)]).

(** JavaScript truthiness of [timerId]: a handle is a positive number. *)
Definition truthy (t : option positive) : bool :=
  match t with Some _ => true | None => false end.

(** *** [self.onmessage] *)

Definition onmessage (r : Request) (w : World) : World :=
  match r with
  | CONFIGURE payload =>
      let w := with_state (set_intervalLength (p_intervalLength payload)) w in
      with_state (set_totalDuration (p_totalDuration payload)) w
  | INIT_STATE payload =>
      let w := with_state (set_currentIntervalTime (p_intervalLength payload)) w in
      let w := with_state (set_totalTimeRemaining (p_totalDuration payload * 60)) w in
      with_state (set_intervalsCompleted 0) w
  | START =>
      if negb (truthy (timerId w)) then
        let (h, w) := setInterval w in
        set_timerId (Some h) w
      else w
  | PAUSE =>
      if truthy (timerId w) then
        let w := clearInterval (timerId w) w in
        set_timerId None w
      else w
  | RESET =>
      let w :=
        if truthy (timerId w) then
          let w := clearInterval (timerId w) w in
          set_timerId None w
        else w in
      let w := with_state
                 (fun s => set_currentIntervalTime (intervalLength s) s) w in
      let w := with_state
                 (fun s => set_totalTimeRemaining (totalDuration s * 60) s) w in
      let w := with_state (set_intervalsCompleted 0) w in
      postMessage TICK w
  end.

(** *** [tick] *)

Definition tick (w : World) : World :=
  let w := with_state
             (fun s => set_totalTimeRemaining (totalTimeRemaining s - 1) s) w in
  if totalTimeRemaining (state w) <=? 0 then
    let w := with_state (set_currentIntervalTime 0) w in
    let w := with_state (set_totalTimeRemaining 0) w in
    let w := clearInterval (timerId w) w in
    let w := set_timerId None w in
    postMessage COMPLETED w
  else
    let w :=
      if (0 <? currentIntervalTime (state w))
         && (currentIntervalTime (state w) <=? 3)
      then postMessage COUNTDOWN w else w in
    let w := with_state
               (fun s => set_currentIntervalTime (currentIntervalTime s - 1) s)
               w in
    if currentIntervalTime (state w) <? 0 then
      let w := with_state
                 (fun s => set_currentIntervalTime (intervalLength s - 1) s) w in
      let w := with_state
                 (fun s => set_intervalsCompleted (intervalsCompleted s + 1) s)
                 w in
      postMessage INTERVAL_END w
    else
      postMessage TICK w.

(** *** The worker's event loop *)

(** One task of the worker: a message from the page, or the callback of the
    interval timer with handle [h], which the platform only runs while that
    timer exists. *)
Inductive Input :=
| Message (r : Request)
| Fire (h : positive).

Definition active (h : positive) (w : World) : bool :=
  existsb (Pos.eqb h) (timers w).

Definition step (i : Input) (w : World) : option World :=
  match i with
  | Message r => Some (onmessage r w)
  | Fire h => if active h w then Some (tick w) else None
  end.

Fixpoint run (ins : list Input) (w : World) : option World :=
  match ins with
  | [] => Some w
  | i :: ins' =>
      match step i w with
      | Some w' => run ins' w'
      | None => None
      end
  end.

(** The messages a tick of [w] posts, and [n] ticks in a row. *)
Definition tick_events (w : World) : list Posted :=
  skipn (length (outbox w)) (outbox (tick w)).

Definition posts (t : EventType) (es : list Posted) : bool :=
  existsb (fun e => EventType_eqb (type e) t) es.

Fixpoint ticks (n : nat) (w : World) : World :=
  match n with
  | O => w
  | S n' => ticks n' (tick w)
  end.

(** *** A tick, branch by branch

    The state a tick leaves and the messages it posts, read off the three
    paths through [tick]; [WorkerSpec.tick_unfold] proves them equal to what
    [tick] computes. *)

Definition tick_state (s : State) : State :=
  let T := totalTimeRemaining s - 1 in
  if T <=? 0 then
    mkState 0 0 (intervalsCompleted s) (intervalLength s) (totalDuration s)
  else if currentIntervalTime s - 1 <? 0 then
    mkState (intervalLength s - 1) T (intervalsCompleted s + 1)
            (intervalLength s) (totalDuration s)
  else
    mkState (currentIntervalTime s - 1) T (intervalsCompleted s)
            (intervalLength s) (totalDuration s).

Definition tick_posts (s : State) : list Posted :=
  let T := totalTimeRemaining s - 1 in
  if T <=? 0 then [mkPosted COMPLETED (tick_state s)]
  else
    (if (0 <? currentIntervalTime s) && (currentIntervalTime s <=? 3)
     then [mkPosted COUNTDOWN (set_totalTimeRemaining T s)] else [])
    ++ [mkPosted (if currentIntervalTime s - 1 <? 0 then INTERVAL_END else TICK)
                 (tick_state s)].

(** *** Invariants of the event loop *)

(** The platform runs exactly the timer [timerId] refers to, if any. *)
Definition one_loop (w : World) : Prop :=
  timers w = match timerId w with Some h => [h] | None => [] end.

(** The payload of a message carries no negative setting. *)
Definition nonneg_payload (i : Input) : Prop :=
  match i with
  | Message (CONFIGURE p) | Message (INIT_STATE p) =>
      0 <= p_intervalLength p /\ 0 <= p_totalDuration p
  | _ => True
  end.

Definition never_negative (es : list Posted) : Prop :=
  Forall (fun e => 0 <= totalTimeRemaining (snapshot e)) es.

Definition posts_ok (w : World) : Prop :=
  0 <= totalDuration (state w) /\ never_negative (outbox w).

(** No CONFIGURE carries a negative total duration. *)
Definition configures_nonneg (i : Input) : Prop :=
  match i with
  | Message (CONFIGURE p) => 0 <= p_totalDuration p
  | _ => True
  end.


End Worker.

(** ** The worker's arithmetic on doubles

    What [tick], INIT_STATE and RESET do to [state] when every arithmetic
    result is rounded to a double. *)

Module Engine.
Import Worker.

Definition tick_state (s : State) : State :=
  let T := Double.round (totalTimeRemaining s - 1) in
  if T <=? 0 then
    mkState 0 0 (intervalsCompleted s) (intervalLength s) (totalDuration s)
  else
    let c := Double.round (currentIntervalTime s - 1) in
    if c <? 0 then
      mkState (Double.round (intervalLength s - 1)) T
              (Double.round (intervalsCompleted s + 1))
              (intervalLength s) (totalDuration s)
    else
      mkState c T (intervalsCompleted s) (intervalLength s) (totalDuration s).

Definition init_state (p : Payload) (s : State) : State :=
  mkState (p_intervalLength p) (Double.round (p_totalDuration p * 60)) 0
          (intervalLength s) (totalDuration s).

Definition reset_state (s : State) : State :=
  mkState (intervalLength s) (Double.round (totalDuration s * 60)) 0
          (intervalLength s) (totalDuration s).

End Engine.

(** ** The page: what the App component sends to the worker *)

Module App.

Inductive TimerStatus := IDLE | RUNNING | PAUSED | COMPLETED.

(** The two settings that reach the worker (the flags and the theme of
    [TimerSettings] never do). *)
Record TimerSettings := mkSettings {
  intervalLength : Z;
  totalDuration : Z
}.

Definition DEFAULT_SETTINGS : TimerSettings :=
  {| intervalLength := 60; totalDuration := 20 |}.

(** [parseInt(e.target.value) || 0]: [None] stands for [NaN]. *)
Definition parseInt_or_0 (parsed : option Z) : Z :=
  match parsed with
  | Some v => v
  | None => 0
  end.

(** The [onChange] handlers of the two number inputs and the two sliders. *)
Definition typeInterval (parsed : option Z) (s : TimerSettings) : TimerSettings :=
  let val := parseInt_or_0 parsed in
  mkSettings (Z.max 0 val) (totalDuration s).

Definition slideInterval (v : Z) (s : TimerSettings) : TimerSettings :=
  mkSettings v (totalDuration s).

Definition typeDuration (parsed : option Z) (s : TimerSettings) : TimerSettings :=
  let val := parseInt_or_0 parsed in
  mkSettings (intervalLength s) (Z.max 0 val).

Definition slideDuration (v : Z) (s : TimerSettings) : TimerSettings :=
  mkSettings (intervalLength s) v.

Definition payloadOf (s : TimerSettings) : Worker.Payload :=
  Worker.mkPayload (intervalLength s) (totalDuration s).

(** The effect on [settings.intervalLength], [settings.totalDuration] and
    [state.status]. *)
Definition settingsEffect (status : TimerStatus) (s : TimerSettings)
  : list Worker.Request :=
  (match status with
   | IDLE => [Worker.INIT_STATE (payloadOf s)]
   | _ => []
   end) ++ [Worker.CONFIGURE (payloadOf s)].

(** The page and its worker. *)
Record Sys := mkSys {
  settings : TimerSettings;
  worker : Worker.World
}.

Definition deliver (rs : list Worker.Request) (w : Worker.World) : Worker.World :=
  fold_left (fun w r => Worker.onmessage r w) rs w.

(** After mounting: the first effect posts CONFIGURE with the defaults, then
    the settings effect runs for the first time, with status IDLE. *)
Definition mounted : Sys :=
  {| settings := DEFAULT_SETTINGS;
     worker :=
       deliver (Worker.CONFIGURE (payloadOf DEFAULT_SETTINGS)
                  :: settingsEffect IDLE DEFAULT_SETTINGS)
               Worker.initial |}.

(** What can happen next: the user edits a setting (the inputs are shown
    while the status is IDLE, so the effect that follows posts INIT_STATE and
    CONFIGURE), the effect runs again because the status changed, one of the
    three buttons posts its message, or the worker's timer fires. *)
Inductive Task :=
| TypeInterval (parsed : option Z)
| SlideInterval (v : Z)
| TypeDuration (parsed : option Z)
| SlideDuration (v : Z)
| StatusChanged (status : TimerStatus)
| ClickStart
| ClickPause
| ClickReset
| TimerFires (h : positive).

Definition edit (s : TimerSettings) (y : Sys) : Sys :=
  {| settings := s; worker := deliver (settingsEffect IDLE s) (worker y) |}.

Definition perform (t : Task) (y : Sys) : option Sys :=
  match t with
  | TypeInterval parsed => Some (edit (typeInterval parsed (settings y)) y)
  | SlideInterval v => Some (edit (slideInterval v (settings y)) y)
  | TypeDuration parsed => Some (edit (typeDuration parsed (settings y)) y)
  | SlideDuration v => Some (edit (slideDuration v (settings y)) y)
  | StatusChanged status =>
      Some (mkSys (settings y)
                  (deliver (settingsEffect status (settings y)) (worker y)))
  | ClickStart => Some (mkSys (settings y) (Worker.onmessage Worker.START (worker y)))
  | ClickPause => Some (mkSys (settings y) (Worker.onmessage Worker.PAUSE (worker y)))
  | ClickReset => Some (mkSys (settings y) (Worker.onmessage Worker.RESET (worker y)))
  | TimerFires h =>
      match Worker.step (Worker.Fire h) (worker y) with
      | Some w => Some (mkSys (settings y) w)
      | None => None
      end
  end.

Fixpoint session (ts : list Task) (y : Sys) : option Sys :=
  match ts with
  | [] => Some y
  | t :: ts' =>
      match perform t y with
      | Some y' => session ts' y'
      | None => None
      end
  end.

(** A slider only offers the values between its [min] and [max]. *)
Definition offered (t : Task) : Prop :=
  match t with
  | SlideInterval v => 5 <= v <= 300
  | SlideDuration v => 1 <= v <= 60
  | _ => True
  end.

(** The interval length a task leaves in the settings is at least one
    second; only typing 0, a negative number or nothing into the interval
    field can break this. *)
Definition keeps_interval_positive (t : Task) : Prop :=
  match t with
  | TypeInterval parsed => 1 <= parseInt_or_0 parsed
  | _ => True
  end.

(** The number a task leaves in the settings is small enough for the
    worker's arithmetic on it to be exact: an interval length up to
    [Double.MAX_SAFE_INTEGER], a total duration whose sixtyfold is.  The
    sliders stay within these bounds by themselves; a typed value need
    not. *)
Definition interval_safe (t : Task) : Prop :=
  match t with
  | TypeInterval parsed => parseInt_or_0 parsed <= Double.MAX_SAFE_INTEGER
  | _ => True
  end.


(** The worker is configured with the page's settings. *)
Definition configured (y : Sys) : Prop :=
  Worker.intervalLength (Worker.state (worker y)) = intervalLength (settings y)
  /\ Worker.totalDuration (Worker.state (worker y)) = totalDuration (settings y).


(** The interval's remaining time is within the interval length. *)
Definition interval_in_range (y : Sys) : Prop :=
  configured y
  /\ 1 <= intervalLength (settings y) <= Double.MAX_SAFE_INTEGER
  /\ 0 <= Worker.currentIntervalTime (Worker.state (worker y))
       <= intervalLength (settings y).

End App.

(** ** The audio service *)

Module Audio.

Local Open Scope nat_scope.

(** [AudioContext.state]; "interrupted" is what iOS Safari reports. *)
Inductive ContextState := suspended | running | closed | interrupted.

Definition is_running (s : ContextState) : bool :=
  match s with running => true | _ => false end.

Definition is_closed (s : ContextState) : bool :=
  match s with closed => true | _ => false end.

(** The platform's answers, each indexed by the number of earlier calls of
    the same kind: the initial state of the next constructed context (or
    [None] when the constructor throws), whether the promise of the next
    [resume()] is fulfilled, whether the promise of the next
    [HTMLAudioElement.play()] is fulfilled; and the user-agent test. *)
Record Browser := mkBrowser {
  construct : nat -> option ContextState;
  resume : nat -> bool;
  play : nat -> bool;
  IS_MOBILE : bool
}.

Inductive Error := ConstructorThrew | ResumeRejected | PlayRejected | TypeError.

Inductive Sound := TickSound | DingSound.

(** Calls on the platform, in order.  [Synthesised] stands for the
    oscillator-and-gain graph a sound operation builds on a ready context;
    [ElementPlayed] for [pause(); currentTime = 0; volume = ...; play()] on an
    audio element (volume 0.7 for the tick, 1 for the ding). *)
Inductive Effect :=
| Constructed (ctx : nat)
| ResumeCalled (ctx : nat)
| Synthesised (s : Sound) (ctx : nat)
| ElementPlayed (s : Sound) (index : nat).

(** The service object and the platform objects it refers to.  A context is
    referred to by its handle, its position in [contexts]; [this.audioCtx] and
    the value [ensureContextReady] returns are such references. *)
Record World := mkWorld {
  audioCtx : option nat;
  tickIdx : nat;
  dingIdx : nat;
  contexts : list ContextState;
  resumes : nat;
  plays : nat;
  effects : list Effect
}.

(** A fresh service: the field initialisers of the class. *)
Definition fresh : World :=
  {| audioCtx := None; tickIdx := 0; dingIdx := 0;
     contexts := []; resumes := 0; plays := 0; effects := [] |}.

(** *** Computations that may throw *)

Inductive Outcome (A : Type) :=
| Returned (a : A)
| Thrown (e : Error).
Arguments Returned {A} a.
Arguments Thrown {A} e.

Definition M (A : Type) : Type := Browser -> World -> Outcome A * World.

Definition ret {A} (a : A) : M A := fun _ w => (Returned a, w).

Definition bind {A B} (c : M A) (k : A -> M B) : M B :=
  fun b w =>
    match c b w with
    | (Returned a, w') => k a b w'
    | (Thrown e, w') => (Thrown e, w')
    end.

Definition throw {A} (e : Error) : M A := fun _ w => (Thrown e, w).

(** [try { body } catch { handler }]; awaiting a rejected promise inside
    [body] throws there. *)
Definition tryCatch {A} (body : M A) (handler : Error -> M A) : M A :=
  fun b w =>
    match body b w with
    | (Returned a, w') => (Returned a, w')
    | (Thrown e, w') => handler e b w'
    end.

Notation "x <- c1 ;; c2" := (bind c1 (fun x => c2))
  (at level 61, c1 at next level, right associativity).
Notation "c1 ;;; c2" := (bind c1 (fun _ => c2))
  (at level 61, right associativity).

Definition getCtx : M (option nat) := fun _ w => (Returned (audioCtx w), w).

Definition setCtx (c : option nat) : M unit :=
  fun _ w =>
    (Returned tt,
     mkWorld c (tickIdx w) (dingIdx w) (contexts w) (resumes w) (plays w)
             (effects w)).

Definition stateOf (c : nat) : M ContextState :=
  fun _ w => (Returned (nth c (contexts w) closed), w).

Definition isMobile : M bool := fun b w => (Returned (IS_MOBILE b), w).

(** [new (window.AudioContext || window.webkitAudioContext)(...)]. *)
Definition newAudioContext : M nat :=
  fun b w =>
    let h := length (contexts w) in
    match construct b h with
    | Some s =>
        (Returned h,
         mkWorld (audioCtx w) (tickIdx w) (dingIdx w) (contexts w ++ [s])
                 (resumes w) (plays w) (effects w ++ [Constructed h]))
    | None => (Thrown ConstructorThrew, w)
    end.

Fixpoint assign {A} (n : nat) (v : A) (l : list A) : list A :=
  match l, n with
  | [], _ => []
  | _ :: t, O => v :: t
  | x :: t, S n' => x :: assign n' v t
  end.

(** [await ctx.resume()]: a fulfilled promise leaves the context running. *)
Definition resumeContext (c : nat) : M unit :=
  fun b w =>
    let ok := resume b (resumes w) in
    let w' :=
      mkWorld (audioCtx w) (tickIdx w) (dingIdx w)
              (if ok then assign c running (contexts w) else contexts w)
              (S (resumes w)) (plays w) (effects w ++ [ResumeCalled c]) in
    if ok then (Returned tt, w') else (Thrown ResumeRejected, w').

Definition synthesise (s : Sound) (c : nat) : M unit :=
  fun _ w =>
    (Returned tt,
     mkWorld (audioCtx w) (tickIdx w) (dingIdx w) (contexts w) (resumes w)
             (plays w) (effects w ++ [Synthesised s c])).

(** [a.pause(); a.currentTime = 0; a.volume = ...; a.play()] with the
    promise of [play()] awaited. *)
Definition elementPlay (s : Sound) (i : nat) : M unit :=
  fun b w =>
    let ok := play b (plays w) in
    let w' :=
      mkWorld (audioCtx w) (tickIdx w) (dingIdx w) (contexts w) (resumes w)
              (S (plays w)) (effects w ++ [ElementPlayed s i]) in
    if ok then (Returned tt, w') else (Thrown PlayRejected, w').

(** *** [initCtx] and [ensureContextReady], the same in every version of the
    service *)

Definition initCtx : M unit :=
  c <- getCtx ;;
  stale <- match c with
           | None => ret true
           | Some a => s <- stateOf a ;; ret (is_closed s)
           end ;;
  if stale then a <- newAudioContext ;; setCtx (Some a) else ret tt.

(** The [if] block yields [Some r] when it executes [return r], [None] when
    control reaches the statement after it. *)
Definition ensureContextReady : M (option nat) :=
  initCtx ;;;
  c <- getCtx ;;
  match c with
  | None => ret None
  | Some a =>
      s <- stateOf a ;;
      returned <-
        (if negb (is_running s) then
           tryCatch
             (resumeContext a ;;; ret None)
             (fun _ =>
                setCtx None ;;;
                initCtx ;;;
                c' <- getCtx ;;
                match c' with
                | None => ret (Some None)
                | Some a' =>
                    tryCatch
                      (resumeContext a' ;;; ret None)
                      (fun _ => ret (Some None))
                end)
         else ret None) ;;
      match returned with
      | Some r => ret r
      | None => getCtx
      end
  end.

(** *** Two properties of computations

    [framed c]: [c] leaves the pool indices and the count of [play()] calls
    alone.  [contained c]: moreover the only exception that leaves [c] is
    the one of the constructor. *)
Definition frame (w w' : World) : Prop :=
  tickIdx w' = tickIdx w /\ dingIdx w' = dingIdx w /\ plays w' = plays w.

Definition framed {A} (c : M A) : Prop :=
  forall b w, frame w (snd (c b w)).

Definition contained {A} (c : M A) : Prop :=
  forall b w,
    frame w (snd (c b w))
    /\ (forall e, fst (c b w) = Thrown e -> e = ConstructorThrew).

(** The world [ensureContextReady] leaves when, in [w1], the resume of the
    context [a] is rejected and the constructor then yields a context in
    state [s']: one rejected resume, one construction, one more resume. *)
Definition retried (b : Browser) (w1 : World) (a : nat) (s' : ContextState)
  : World :=
  let a' := length (contexts w1) in
  mkWorld (Some a') (tickIdx w1) (dingIdx w1)
          (if resume b (S (resumes w1))
           then assign a' running (contexts w1 ++ [s'])
           else contexts w1 ++ [s'])
          (S (S (resumes w1))) (plays w1)
          (effects w1 ++ [ResumeCalled a; Constructed a'; ResumeCalled a']).

(** A platform whose first context starts suspended, whose [resume()] is
    always rejected and whose constructor throws from the second call on. *)
Definition constructor_throws_on_retry : Browser :=
  {| construct := fun n => match n with O => Some suspended | S _ => None end;
     resume := fun _ => false;
     play := fun _ => true;
     IS_MOBILE := false |}.

(** What a sound operation leaves on that platform, called on the fresh
    service: the constructor's exception, after one construction and one
    rejected resume, with [audioCtx] null and no element played. *)
Definition constructor_exception_raised : Outcome unit * World :=
  (Thrown ConstructorThrew,
   {| audioCtx := None; tickIdx := 0; dingIdx := 0;
      contexts := [suspended]; resumes := 1; plays := 0;
      effects := [Constructed 0; ResumeCalled 0] |}).

(** *** services/audioService.ts: no fallback *)

Module Plain.

Definition playTick : M unit :=
  ctx <- ensureContextReady ;;
  match ctx with
  | None => ret tt
  | Some c => synthesise TickSound c
  end.

Definition playDing : M unit :=
  ctx <- ensureContextReady ;;
  match ctx with
  | None => ret tt
  | Some c => synthesise DingSound c
  end.

End Plain.

(** *** The versions with one fallback element per sound *)

Module Fallback.

(** [audio.play().catch(() => {})] *)
Definition playFallback (s : Sound) : M unit :=
  tryCatch (elementPlay s 0) (fun _ => ret tt).

Definition playTick : M unit :=
  ctx <- ensureContextReady ;;
  match ctx with
  | None => playFallback TickSound
  | Some c => synthesise TickSound c
  end.

Definition playDing : M unit :=
  ctx <- ensureContextReady ;;
  match ctx with
  | None => playFallback DingSound
  | Some c => synthesise DingSound c
  end.

End Fallback.

(** *** The version with pools of elements *)

Module Pooled.

Definition POOL_SIZE : nat := 3.

Definition getIdx (s : Sound) : M nat :=
  fun _ w =>
    (Returned (match s with TickSound => tickIdx w | DingSound => dingIdx w end),
     w).

Definition setIdx (s : Sound) (i : nat) : M unit :=
  fun _ w =>
    (Returned tt,
     match s with
     | TickSound =>
         mkWorld (audioCtx w) i (dingIdx w) (contexts w) (resumes w) (plays w)
                 (effects w)
     | DingSound =>
         mkWorld (audioCtx w) (tickIdx w) i (contexts w) (resumes w) (plays w)
                 (effects w)
     end).

(** [pool[this[idxKey]]] is an element when the index is below the pool's
    length and [undefined] otherwise, and then [a.pause()] is a TypeError. *)
Definition playFromPool (s : Sound) : M unit :=
  i <- getIdx s ;;
  setIdx s ((i + 1) mod POOL_SIZE) ;;;
  if i <? POOL_SIZE
  then tryCatch (elementPlay s i) (fun _ => ret tt)
  else throw TypeError.

Definition playTick : M unit :=
  ctx <- ensureContextReady ;;
  mobile <- isMobile ;;
  (if negb (match ctx with Some _ => true | None => false end) || mobile
   then playFromPool TickSound else ret tt) ;;;
  match ctx with
  | None => ret tt
  | Some c => synthesise TickSound c
  end.

Definition playDing : M unit :=
  ctx <- ensureContextReady ;;
  mobile <- isMobile ;;
  (if negb (match ctx with Some _ => true | None => false end) || mobile
   then playFromPool DingSound else ret tt) ;;;
  match ctx with
  | None => ret tt
  | Some c => synthesise DingSound c
  end.

(** Pool indices stay inside their pools. *)
Definition indices_ok (w : World) : Prop :=
  tickIdx w < POOL_SIZE /\ dingIdx w < POOL_SIZE.

End Pooled.

End Audio.

From Stdlib Require Ascii String.

(** ** More of the worker: sessions *)

Module Session.
Import Worker.

(** The worker right after the page has initialised a session: INIT_STATE
    and CONFIGURE with the same payload. *)
Definition begin (p : Payload) (w : World) : World :=
  onmessage (CONFIGURE p) (onmessage (INIT_STATE p) w).

(** The configuration the worker currently holds, as a payload. *)
Definition config (w : World) : Payload :=
  mkPayload (intervalLength (state w)) (totalDuration (state w)).

(** The messages of type [t] among [es]. *)
Definition count (t : EventType) (es : list Posted) : nat :=
  length (filter (fun e => EventType_eqb (type e) t) es).

(** Inputs that do not re-initialise the countdown: everything except
    INIT_STATE and RESET. *)
Definition keeps_countdown (i : Input) : Prop :=
  match i with
  | Message (INIT_STATE _) | Message RESET => False
  | _ => True
  end.

(** What a list of posted messages looks like once the session is over. *)
Definition all_completed (es : list Posted) : Prop :=
  Forall (fun e => type e = COMPLETED
                   /\ totalTimeRemaining (snapshot e) = 0
                   /\ currentIntervalTime (snapshot e) = 0) es.

Definition counters_nonneg (es : list Posted) : Prop :=
  Forall (fun e => 0 <= intervalsCompleted (snapshot e)) es.

End Session.

(** ** More of the page: what it does with the worker's messages *)

Module Page.
Import App.

(** [TimerState], the state of the App component. *)
Record TimerState := mkTimerState {
  currentIntervalTime : Z;
  totalTimeRemaining : Z;
  intervalsCompleted : Z;
  status : TimerStatus
}.

(** The initial value given to [useState]. *)
Definition initialState : TimerState :=
  {| currentIntervalTime := intervalLength DEFAULT_SETTINGS;
     totalTimeRemaining := totalDuration DEFAULT_SETTINGS * 60;
     intervalsCompleted := 0;
     status := IDLE |}.

(** What the handler of the worker's messages calls besides [setState]. *)
Inductive Call :=
| PlayTick
| TriggerAlert
| ReleaseWakeLock
| DisableBackgroundMode.

Definition Call_eqb (a b : Call) : bool :=
  match a, b with
  | PlayTick, PlayTick | TriggerAlert, TriggerAlert
  | ReleaseWakeLock, ReleaseWakeLock
  | DisableBackgroundMode, DisableBackgroundMode => true
  | _, _ => false
  end.

(** [worker.onmessage]: the updater passed to [setState], applied to the
    previous state, and the calls made, in order. *)
Definition workerOnMessage (e : Worker.Posted) (prev : TimerState)
  : TimerState * list Call :=
  let type := Worker.type e in
  let workerState := Worker.snapshot e in
  ({| currentIntervalTime := Worker.currentIntervalTime workerState;
      totalTimeRemaining := Worker.totalTimeRemaining workerState;
      intervalsCompleted := Worker.intervalsCompleted workerState;
      status := match type with
                | Worker.COMPLETED => COMPLETED
                | _ => status prev
                end |},
   (match type with
    | Worker.COUNTDOWN => [PlayTick]
    | Worker.INTERVAL_END | Worker.COMPLETED => [TriggerAlert]
    | _ => []
    end)
   ++ (match type with
       | Worker.COMPLETED => [ReleaseWakeLock; DisableBackgroundMode]
       | _ => []
       end)).

(** The messages of the worker handled one after the other. *)
Fixpoint receive (es : list Worker.Posted) (st : TimerState)
  : TimerState * list Call :=
  match es with
  | [] => (st, [])
  | e :: es' =>
      let (st1, calls1) := workerOnMessage e st in
      let (st2, calls2) := receive es' st1 in
      (st2, calls1 ++ calls2)
  end.

(** *** The theme of the moment *)

Inductive ThemeName := zen | ocean | forest | sunset.

Definition THEME_KEYS : list ThemeName := [zen; ocean; forest; sunset].

(** [array[i]] for a number [i]: [undefined] unless [i] is an index. *)
Definition at_index {A} (l : list A) (i : Z) : option A :=
  if i <? 0 then None else nth_error l (Z.to_nat i).

(** [THEME_KEYS[state.intervalsCompleted % THEME_KEYS.length]]; [%] takes the
    sign of the dividend.  [THEMES] has an entry for every theme name, so
    [currentTheme] is defined exactly when this key is. *)
Definition currentThemeKey (st : TimerState) : option ThemeName :=
  at_index THEME_KEYS
           (Z.rem (intervalsCompleted st) (Z.of_nat (length THEME_KEYS))).

End Page.

(** ** More of the audio service *)

Module AudioMore.
Import Audio.
Local Open Scope nat_scope.

(** [this.audioCtx], when set, refers to a context that exists. *)
Definition ctx_valid (w : World) : Prop :=
  match audioCtx w with
  | Some a => a < length (contexts w)
  | None => True
  end.

(** The effects of [w'] beyond those of [w]. *)
Definition new_effects (w w' : World) : list Effect :=
  skipn (length (effects w)) (effects w').

Definition is_resume (e : Effect) : bool :=
  match e with ResumeCalled _ => true | _ => false end.

Definition is_construction (e : Effect) : bool :=
  match e with Constructed _ => true | _ => false end.

Definition is_sound (e : Effect) : bool :=
  match e with Synthesised _ _ | ElementPlayed _ _ => true | _ => false end.

Definition Sound_eqb (a b : Sound) : bool :=
  match a, b with
  | TickSound, TickSound | DingSound, DingSound => true
  | _, _ => false
  end.

(** How many times an element of the pool of [s] was played. *)
Definition played (s : Sound) (es : list Effect) : nat :=
  length (filter (fun e => match e with
                           | ElementPlayed s' _ => Sound_eqb s' s
                           | _ => false
                           end) es).

(** Every element played is an element of its pool. *)
Definition within_pools (es : list Effect) : Prop :=
  Forall (fun e => match e with
                   | ElementPlayed _ i => i < Pooled.POOL_SIZE
                   | _ => True
                   end) es.

(** The page's calls of the two sound operations of the pooled service, one
    after the other; a call that throws rejects its own promise and leaves
    the later calls to run. *)
Inductive SoundCall := CallTick | CallDing.

Definition pooledCall (c : SoundCall) : M unit :=
  match c with
  | CallTick => Pooled.playTick
  | CallDing => Pooled.playDing
  end.

Fixpoint pooledCalls (cs : list SoundCall) (b : Browser) (w : World)
  : list (Outcome unit) * World :=
  match cs with
  | [] => ([], w)
  | c :: cs' =>
      let (o, w1) := pooledCall c b w in
      let (os, w2) := pooledCalls cs' b w1 in
      (o :: os, w2)
  end.

End AudioMore.

(** ** Invocations of [ensureContextReady] that overlap

    [ensureContextReady] is an [async] function: it runs up to an [await],
    is suspended there until the promise it awaits is settled, and other
    code of the page, another invocation for instance, runs in between.
    The page starts an invocation on every gesture.  Here the function is
    cut at its two [await]s. *)

Module Overlap.
Import Audio.
Local Open Scope nat_scope.

(** Where an invocation stands: suspended at the first [await], on the
    promise that call number [k] of [resume()] returned for the context
    [a]; suspended at the [await] of the [catch] block, likewise; or
    finished, with what it returned or threw. *)
Inductive Invocation :=
| AtFirstAwait (a k : nat)
| AtRetryAwait (a k : nat)
| Finished (r : Outcome (option nat)).

(** [ctx.resume()], the call: it is recorded and returns a promise,
    identified by the number of the call. *)
Definition callResume (c : nat) (w : World) : nat * World :=
  (resumes w,
   mkWorld (audioCtx w) (tickIdx w) (dingIdx w) (contexts w)
           (S (resumes w)) (plays w) (effects w ++ [ResumeCalled c])).

(** The promise of call number [k] is settled: fulfilled, and then the
    context is running, or rejected. *)
Definition settle (b : Browser) (c k : nat) (w : World) : bool * World :=
  if resume b k
  then (true,
        mkWorld (audioCtx w) (tickIdx w) (dingIdx w)
                (assign c running (contexts w))
                (resumes w) (plays w) (effects w))
  else (false, w).

(** From the call to the first [await] or to a [return] before it. *)
Definition invoke (b : Browser) (w : World) : Invocation * World :=
  match initCtx b w with
  | (Thrown e, w1) => (Finished (Thrown e), w1)
  | (Returned _, w1) =>
      match audioCtx w1 with
      | None => (Finished (Returned None), w1)
      | Some a =>
          if negb (is_running (nth a (contexts w1) closed))
          then let (k, w2) := callResume a w1 in (AtFirstAwait a k, w2)
          else (Finished (Returned (audioCtx w1)), w1)
      end
  end.

(** From the settling of the awaited promise to the next [await] or to the
    end.  [return this.audioCtx] reads the field at that moment. *)
Definition wake (b : Browser) (i : Invocation) (w : World)
  : Invocation * World :=
  match i with
  | AtFirstAwait a k =>
      let (fulfilled, w1) := settle b a k w in
      if fulfilled then (Finished (Returned (audioCtx w1)), w1)
      else
        match (setCtx None ;;; initCtx) b w1 with
        | (Thrown e, w2) => (Finished (Thrown e), w2)
        | (Returned _, w2) =>
            match audioCtx w2 with
            | None => (Finished (Returned None), w2)
            | Some a' =>
                let (k', w3) := callResume a' w2 in (AtRetryAwait a' k', w3)
            end
        end
  | AtRetryAwait a k =>
      let (fulfilled, w1) := settle b a k w in
      if fulfilled then (Finished (Returned (audioCtx w1)), w1)
      else (Finished (Returned None), w1)
  | Finished r => (Finished r, w)
  end.

(** The service with the invocations started so far, and what happens
    next: a new invocation, or the promise that invocation number [n] awaits
    is settled. *)
Inductive Action := Invoke | Wake (n : nat).

Definition act (b : Browser) (y : World * list Invocation) (x : Action)
  : World * list Invocation :=
  match x with
  | Invoke =>
      let (i, w) := invoke b (fst y) in (w, snd y ++ [i])
  | Wake n =>
      match nth_error (snd y) n with
      | Some i =>
          let (i', w) := wake b i (fst y) in (w, assign n i' (snd y))
      | None => y
      end
  end.

Definition acts (b : Browser) (xs : list Action) (y : World * list Invocation)
  : World * list Invocation :=
  fold_left (act b) xs y.

(** A platform on which contexts start suspended and only the third call of
    [resume()] is fulfilled. *)
Definition third_resume_fulfilled : Browser :=
  {| construct := fun _ => Some suspended;
     resume := fun k => Nat.eqb k 2;
     play := fun _ => true;
     IS_MOBILE := false |}.

End Overlap.

(** ** The background mode and the priming of the audio elements *)

Module Background.
Import Audio.
Local Open Scope nat_scope.

(** The [HTMLAudioElement]s of the service: those of the two pools and the
    silent one.  The versions with one fallback element per sound have
    [TickEl 0] and [DingEl 0] only. *)
Inductive Element := TickEl (i : nat) | DingEl (i : nat) | SilentEl.

Definition Element_eqb (a b : Element) : bool :=
  match a, b with
  | TickEl i, TickEl j | DingEl i, DingEl j => Nat.eqb i j
  | SilentEl, SilentEl => true
  | _, _ => false
  end.

(** Calls on oscillators and elements, in order.  [KeepAliveStarted c]
    stands for creating the keep-alive oscillator and its gain on the
    context [c], connecting and starting them; [KeepAliveStop c ok] for
    [stop()] on that oscillator, followed by [disconnect()] when [stop()]
    did not throw; [UnlockTone c] for the 20 ms tone of [unlock]. *)
Inductive NodeCall :=
| KeepAliveStarted (ctx : nat)
| KeepAliveStop (ctx : nat) (ok : bool)
| UnlockTone (ctx : nat)
| ElPlay (el : Element) (ok : bool)
| ElPause (el : Element).

(** The platform: the answers of [Audio.Browser], and whether the next
    [stop()] of an oscillator returns or throws. *)
Record Platform := mkPlatform {
  browser : Browser;
  stop : nat -> bool
}.

(** The service object in full: the part modelled in [Audio.World], the
    keep-alive fields, which elements are muted, whether the silent element
    is in fact playing, and the calls made. *)
Record Service := mkService {
  core : World;
  keepAliveOsc : option nat;
  keepAliveGain : option nat;
  silentPlaying : bool;
  muted : Element -> bool;
  silentOn : bool;
  stops : nat;
  calls : list NodeCall
}.

Definition freshService : Service :=
  {| core := fresh; keepAliveOsc := None; keepAliveGain := None;
     silentPlaying := false; muted := fun _ => false; silentOn := false;
     stops := 0; calls := [] |}.

Definition Act (A : Type) : Type := Platform -> Service -> Outcome A * Service.

Definition retS {A} (a : A) : Act A := fun _ v => (Returned a, v).

Definition bindS {A B} (c : Act A) (k : A -> Act B) : Act B :=
  fun pf v =>
    match c pf v with
    | (Returned a, v') => k a pf v'
    | (Thrown e, v') => (Thrown e, v')
    end.

Definition tryS {A} (body : Act A) (handler : Error -> Act A) : Act A :=
  fun pf v =>
    match body pf v with
    | (Returned a, v') => (Returned a, v')
    | (Thrown e, v') => handler e pf v'
    end.

Notation "x <~ c1 ;; c2" := (bindS c1 (fun x => c2))
  (at level 61, c1 at next level, right associativity).
Notation "c1 ;;~ c2" := (bindS c1 (fun _ => c2))
  (at level 61, right associativity).

(** A computation of [Audio] run on the [core] of the service. *)
Definition lift {A} (c : M A) : Act A :=
  fun pf v =>
    let (o, w') := c (browser pf) (core v) in
    (o, mkService w' (keepAliveOsc v) (keepAliveGain v) (silentPlaying v)
                  (muted v) (silentOn v) (stops v) (calls v)).

Definition getOsc : Act (option nat) := fun _ v => (Returned (keepAliveOsc v), v).
Definition getGain : Act (option nat) := fun _ v => (Returned (keepAliveGain v), v).
Definition getSilentPlaying : Act bool := fun _ v => (Returned (silentPlaying v), v).

Definition setOsc (o : option nat) : Act unit :=
  fun _ v =>
    (Returned tt,
     mkService (core v) o (keepAliveGain v) (silentPlaying v) (muted v)
               (silentOn v) (stops v) (calls v)).

Definition setGain (g : option nat) : Act unit :=
  fun _ v =>
    (Returned tt,
     mkService (core v) (keepAliveOsc v) g (silentPlaying v) (muted v)
               (silentOn v) (stops v) (calls v)).

Definition setSilentPlaying (p : bool) : Act unit :=
  fun _ v =>
    (Returned tt,
     mkService (core v) (keepAliveOsc v) (keepAliveGain v) p (muted v)
               (silentOn v) (stops v) (calls v)).

Definition setMuted (a : Element) (m : bool) : Act unit :=
  fun _ v =>
    (Returned tt,
     mkService (core v) (keepAliveOsc v) (keepAliveGain v) (silentPlaying v)
               (fun e => if Element_eqb e a then m else muted v e)
               (silentOn v) (stops v) (calls v)).

(** [this.keepAliveOsc = ctx.createOscillator(); this.keepAliveGain =
    ctx.createGain(); ...; this.keepAliveOsc.start()] *)
Definition startKeepAlive (c : nat) : Act unit :=
  fun _ v =>
    (Returned tt,
     mkService (core v) (Some c) (Some c) (silentPlaying v) (muted v)
               (silentOn v) (stops v) (calls v ++ [KeepAliveStarted c])).

(** [this.keepAliveOsc.stop(); this.keepAliveOsc.disconnect()]; what is
    thrown is caught at once wherever this is called, [TypeError] stands
    for it. *)
Definition stopKeepAlive (c : nat) : Act unit :=
  fun pf v =>
    let ok := stop pf (stops v) in
    let v' := mkService (core v) (keepAliveOsc v) (keepAliveGain v)
                        (silentPlaying v) (muted v) (silentOn v)
                        (S (stops v))
                        (calls v ++ [KeepAliveStop c ok]) in
    if ok then (Returned tt, v') else (Thrown TypeError, v').

Definition unlockTone (c : nat) : Act unit :=
  fun _ v =>
    (Returned tt,
     mkService (core v) (keepAliveOsc v) (keepAliveGain v) (silentPlaying v)
               (muted v) (silentOn v) (stops v) (calls v ++ [UnlockTone c])).

(** [await a.play()]: the platform's next answer for a [play()]; a
    fulfilled promise on the silent element means it is playing. *)
Definition playEl (a : Element) : Act unit :=
  fun pf v =>
    let w := core v in
    let ok := play (browser pf) (plays w) in
    let w' := mkWorld (audioCtx w) (tickIdx w) (dingIdx w) (contexts w)
                      (resumes w) (S (plays w)) (effects w) in
    let v' := mkService w' (keepAliveOsc v) (keepAliveGain v)
                        (silentPlaying v) (muted v)
                        (if ok && Element_eqb a SilentEl then true
                         else silentOn v)
                        (stops v) (calls v ++ [ElPlay a ok]) in
    if ok then (Returned tt, v') else (Thrown PlayRejected, v').

(** [a.pause()] *)
Definition pauseEl (a : Element) : Act unit :=
  fun _ v =>
    (Returned tt,
     mkService (core v) (keepAliveOsc v) (keepAliveGain v) (silentPlaying v)
               (muted v)
               (if Element_eqb a SilentEl then false else silentOn v)
               (stops v) (calls v ++ [ElPause a])).

(** [for (const a of all) body] *)
Fixpoint forEach (els : list Element) (body : Element -> Act unit) : Act unit :=
  match els with
  | [] => retS tt
  | a :: els' => body a ;;~ forEach els' body
  end.

(** *** The version with pools *)

Module Pooled.

Definition all : list Element :=
  [TickEl 0; TickEl 1; TickEl 2; DingEl 0; DingEl 1; DingEl 2; SilentEl].

(** The body of the loop of [primeFallbackAudio]. *)
Definition primeOne (a : Element) : Act unit :=
  tryS (setMuted a true ;;~ playEl a ;;~ pauseEl a) (fun _ => retS tt) ;;~
  setMuted a false.

Definition primeFallbackAudio : Act unit := forEach all primeOne.

Definition unlock : Act unit :=
  ctx <~ lift ensureContextReady ;;
  match ctx with
  | Some c => unlockTone c
  | None => retS tt
  end ;;~
  tryS primeFallbackAudio (fun _ => retS tt).

(** The promise of [silentAudio.play()] is taken as settled at once: its
    [catch] handler runs before the operation ends. *)
Definition enableBackgroundMode : Act unit :=
  ctx <~ lift ensureContextReady ;;
  osc <~ getOsc ;;
  match ctx, osc with
  | Some c, None => startKeepAlive c
  | _, _ => retS tt
  end ;;~
  playing <~ getSilentPlaying ;;
  if negb playing then
    setSilentPlaying true ;;~
    tryS (playEl SilentEl) (fun _ => setSilentPlaying false)
  else retS tt.

Definition disableBackgroundMode : Act unit :=
  osc <~ getOsc ;;
  match osc with
  | Some c => tryS (stopKeepAlive c) (fun _ => retS tt) ;;~ setOsc None
  | None => retS tt
  end ;;~
  gain <~ getGain ;;
  match gain with
  | Some _ => setGain None
  | None => retS tt
  end ;;~
  playing <~ getSilentPlaying ;;
  if playing then pauseEl SilentEl ;;~ setSilentPlaying false else retS tt.

Definition recoverForActiveSession : Act unit :=
  unlock ;;~ enableBackgroundMode.

End Pooled.

(** *** The versions with one fallback element per sound

    [enableBackgroundMode] and [disableBackgroundMode] are also those of
    services/audioService.ts, which has no elements to prime. *)

Module Fallback.

(** The body of the loop of [primeFallbackAudio]: no [try] here. *)
Definition primeOne (audio : Element) : Act unit :=
  setMuted audio true ;;~ playEl audio ;;~ pauseEl audio ;;~
  setMuted audio false.

Definition primeFallbackAudio : Act unit :=
  forEach [TickEl 0; DingEl 0] primeOne.

Definition unlock : Act unit :=
  ctx <~ lift ensureContextReady ;;
  match ctx with
  | Some c => unlockTone c
  | None => retS tt
  end ;;~
  tryS primeFallbackAudio (fun _ => retS tt).

Definition enableBackgroundMode : Act unit :=
  ctx <~ lift ensureContextReady ;;
  match ctx with
  | None => retS tt
  | Some c =>
      osc <~ getOsc ;;
      match osc with
      | Some _ => retS tt
      | None => startKeepAlive c
      end
  end.

Definition disableBackgroundMode : Act unit :=
  osc <~ getOsc ;;
  match osc with
  | Some c => tryS (stopKeepAlive c) (fun _ => retS tt) ;;~ setOsc None
  | None => retS tt
  end ;;~
  gain <~ getGain ;;
  match gain with
  | Some _ => setGain None
  | None => retS tt
  end.

Definition recoverForActiveSession : Act unit :=
  unlock ;;~ enableBackgroundMode.

End Fallback.

(** *** The page's calls, one after the other *)

Inductive Op := Unlock | Enable | Disable | Recover.

Definition pooledOp (o : Op) : Act unit :=
  match o with
  | Unlock => Pooled.unlock
  | Enable => Pooled.enableBackgroundMode
  | Disable => Pooled.disableBackgroundMode
  | Recover => Pooled.recoverForActiveSession
  end.

Definition fallbackOp (o : Op) : Act unit :=
  match o with
  | Unlock => Fallback.unlock
  | Enable => Fallback.enableBackgroundMode
  | Disable => Fallback.disableBackgroundMode
  | Recover => Fallback.recoverForActiveSession
  end.

Fixpoint ops (run : Op -> Act unit) (os : list Op) (pf : Platform) (v : Service)
  : Service :=
  match os with
  | [] => v
  | o :: os' => ops run os' pf (snd (run o pf v))
  end.

Definition started (cs : list NodeCall) : nat :=
  length (filter (fun c => match c with KeepAliveStarted _ => true
                                   | _ => false end) cs).

Definition stop_calls (cs : list NodeCall) : nat :=
  length (filter (fun c => match c with KeepAliveStop _ _ => true
                                   | _ => false end) cs).

(** Every keep-alive oscillator ever started has had [stop()] called on it,
    except the one [keepAliveOsc] holds; and the gain is held exactly when
    the oscillator is. *)
Definition keep_alive_ok (v : Service) : Prop :=
  started (calls v)
  = stop_calls (calls v) + (match keepAliveOsc v with Some _ => 1 | None => 0 end)
  /\ keepAliveGain v = keepAliveOsc v.

(** [quiet v v']: from [v] to [v'] the keep-alive fields and the
    silent-loop flag are unchanged and no oscillator was started or
    stopped. *)
Definition quiet (v v' : Service) : Prop :=
  keepAliveOsc v' = keepAliveOsc v
  /\ keepAliveGain v' = keepAliveGain v
  /\ silentPlaying v' = silentPlaying v
  /\ started (calls v') = started (calls v)
  /\ stop_calls (calls v') = stop_calls (calls v).

End Background.

(** ** The tone files of the fallback elements: [createToneDataUrl] *)

Module Wav.
Import String.StringSyntax.
Local Delimit Scope string_scope with string.

(** The function builds a WAV file in an [ArrayBuffer] through a
    [DataView].  Two of its steps compute with fractions and are taken as
    given here: [scaled] is the value of
    [Math.floor(SAMPLE_RATE * durationSeconds)] and [pcm i] the integer part
    of [value * 32767] for sample [i].  The last step, the base64 text of the
    bytes, is the platform's [btoa] and is left out. *)

Definition SAMPLE_RATE : Z := 22050.

(** The bytes of the buffer, each in 0..255. *)
Definition Buffer := list Z.

(** Store one byte at an index inside the buffer. *)
Fixpoint put (off : nat) (b : Z) (buf : Buffer) : Buffer :=
  match buf, off with
  | [], _ => []
  | _ :: t, O => b :: t
  | x :: t, S off' => x :: put off' b t
  end.

(** The setters of [DataView], little endian where there is a choice.  The
    value is reduced modulo the width; writing beyond the end of the buffer
    is a [RangeError], here [None]. *)
Definition setUint8 (off : nat) (v : Z) (view : Buffer) : option Buffer :=
  if (off + 1 <=? length view)%nat
  then Some (put off (v mod 256) view)
  else None.

Definition setUint16 (off : nat) (v : Z) (view : Buffer) : option Buffer :=
  if (off + 2 <=? length view)%nat
  then Some (put (off + 1) ((v / 256) mod 256) (put off (v mod 256) view))
  else None.

Definition setUint32 (off : nat) (v : Z) (view : Buffer) : option Buffer :=
  if (off + 4 <=? length view)%nat
  then Some (put (off + 3) ((v / 16777216) mod 256)
               (put (off + 2) ((v / 65536) mod 256)
                  (put (off + 1) ((v / 256) mod 256)
                     (put off (v mod 256) view))))
  else None.

(** [setInt16] stores the two's complement of its value: the same bytes as
    [setUint16]. *)
Definition setInt16 (off : nat) (v : Z) (view : Buffer) : option Buffer :=
  setUint16 off (v mod 65536) view.

Definition andThen {A B} (o : option A) (k : A -> option B) : option B :=
  match o with
  | Some a => k a
  | None => None
  end.

Notation "x <== c1 ;; c2" := (andThen c1 (fun x => c2))
  (at level 61, c1 at next level, right associativity).

Definition charCode (c : Ascii.ascii) : Z := Z.of_nat (Ascii.nat_of_ascii c).

(** [writeString]: one [setUint8] per character. *)
Fixpoint writeString (offset : nat) (value : String.string) (view : Buffer)
  : option Buffer :=
  match value with
  | String.EmptyString => Some view
  | String.String c rest =>
      view <== setUint8 offset (charCode c) view ;;
      writeString (S offset) rest view
  end.

(** The 44 bytes of the header. *)
Definition writeHeader (dataSize : Z) (view : Buffer) : option Buffer :=
  view <== writeString 0 "RIFF"%string view ;;
  view <== setUint32 4 (36 + dataSize) view ;;
  view <== writeString 8 "WAVE"%string view ;;
  view <== writeString 12 "fmt "%string view ;;
  view <== setUint32 16 16 view ;;
  view <== setUint16 20 1 view ;;
  view <== setUint16 22 1 view ;;
  view <== setUint32 24 SAMPLE_RATE view ;;
  view <== setUint32 28 (SAMPLE_RATE * 2) view ;;
  view <== setUint16 32 2 view ;;
  view <== setUint16 34 16 view ;;
  view <== writeString 36 "data"%string view ;;
  setUint32 40 dataSize view.

(** The loop over the samples: [count] samples from number [i] on. *)
Fixpoint writeSamples (pcm : nat -> Z) (i count : nat) (view : Buffer)
  : option Buffer :=
  match count with
  | O => Some view
  | S count' =>
      view <== setInt16 (44 + i * 2) (pcm i) view ;;
      writeSamples pcm (S i) count' view
  end.

(** The bytes [createToneDataUrl] hands to [btoa]. *)
Definition toneBytes (scaled : Z) (pcm : nat -> Z) : option Buffer :=
  let sampleCount := Z.max 1 scaled in
  let dataSize := sampleCount * 2 in
  let buffer := repeat 0 (Z.to_nat (44 + dataSize)) in
  view <== writeHeader dataSize buffer ;;
  writeSamples pcm 0 (Z.to_nat sampleCount) view.

(** The header as a list, read off [writeHeader];
    [WavSpec.header_on_zeros] proves it is what [writeHeader] leaves at the
    front of a zeroed buffer. *)
Definition headerBytes (dataSize : Z) : list Z :=
  [82; 73; 70; 70;
   (36 + dataSize) mod 256; ((36 + dataSize) / 256) mod 256;
   ((36 + dataSize) / 65536) mod 256; ((36 + dataSize) / 16777216) mod 256;
   87; 65; 86; 69;
   102; 109; 116; 32;
   16; 0; 0; 0;
   1; 0;
   1; 0;
   34; 86; 0; 0;
   68; 172; 0; 0;
   2; 0;
   16; 0;
   100; 97; 116; 97;
   dataSize mod 256; (dataSize / 256) mod 256;
   (dataSize / 65536) mod 256; (dataSize / 16777216) mod 256].

(** *** Reading the file back, as a WAV decoder does *)

Definition byteAt (view : Buffer) (off : nat) : Z := nth off view 0.

Definition getUint16 (off : nat) (view : Buffer) : Z :=
  byteAt view off + 256 * byteAt view (off + 1).

Definition getUint32 (off : nat) (view : Buffer) : Z :=
  byteAt view off + 256 * byteAt view (off + 1)
  + 65536 * byteAt view (off + 2) + 16777216 * byteAt view (off + 3).

Definition getInt16 (off : nat) (view : Buffer) : Z :=
  let u := getUint16 off view in
  if u <? 32768 then u else u - 65536.

Definition codes (s : String.string) : list Z :=
  map charCode (String.list_ascii_of_string s).

(** The bytes from [off] on, [n] of them. *)
Definition slice (off n : nat) (view : Buffer) : list Z :=
  firstn n (skipn off view).

End Wav.

(** ** Properties of the worker *)

Module WorkerSpec.
Import Worker.

Lemma skipn_length_app {A} (l r : list A) : skipn (length l) (l ++ r) = r.
Proof. induction l as [|x l IH]; [reflexivity | exact IH]. Qed.

Lemma tick_unfold (w : World) :
  state (tick w) = tick_state (state w)
  /\ outbox (tick w) = outbox w ++ tick_posts (state w)
  /\ nextHandle (tick w) = nextHandle w
  /\ ((totalTimeRemaining (state w) - 1 <=? 0) = true ->
      timerId (tick w) = None
      /\ timers (tick w) = timers (clearInterval (timerId w) w))
  /\ ((totalTimeRemaining (state w) - 1 <=? 0) = false ->
      timerId (tick w) = timerId w /\ timers (tick w) = timers w).
Proof.
  destruct w as [[c t n L D] tid tms nh ob].
  unfold tick, tick_posts, tick_state; cbn.
  destruct (t - 1 <=? 0) eqn:Ht; cbn.
  - destruct tid; cbn; repeat split; try reflexivity; discriminate.
  - destruct ((0 <? c) && (c <=? 3)) eqn:Hc; cbn;
      destruct (c - 1 <? 0) eqn:Hr; cbn;
      rewrite <- ?app_assoc; repeat split; try reflexivity; discriminate.
Qed.

Lemma tick_state_eq (w : World) : state (tick w) = tick_state (state w).
Proof. apply tick_unfold. Qed.

Lemma tick_events_eq (w : World) : tick_events w = tick_posts (state w).
Proof.
  unfold tick_events.
  destruct (tick_unfold w) as (_ & -> & _).
  apply skipn_length_app.
Qed.

(** *** Reasoning along a run of the event loop *)

Section Runs.
Variable ok : Input -> Prop.
Variable P : World -> Prop.
Hypothesis P_step :
  forall i w w', ok i -> P w -> step i w = Some w' -> P w'.

Lemma run_preserves (ins : list Input) :
  forall w w', Forall ok ins -> P w -> run ins w = Some w' -> P w'.
Proof.
  induction ins as [|i ins IH]; intros w w' Hok Hw Hrun; cbn in Hrun.
  - now injection Hrun as <-.
  - inversion Hok as [|? ? Hi Hins]; subst.
    destruct (step i w) as [w1|] eqn:Hs; [|discriminate].
    apply (IH w1); [assumption | eapply P_step; eassumption | assumption].
Qed.
End Runs.

Lemma step_cases (i : Input) (w w' : World) :
  step i w = Some w' ->
  (exists r, i = Message r /\ w' = onmessage r w)
  \/ (exists h, i = Fire h /\ active h w = true /\ w' = tick w).
Proof.
  destruct i as [r|h]; cbn; intros H.
  - left; exists r; split; congruence.
  - right; exists h. destruct (active h w); [|discriminate].
    repeat split; congruence.
Qed.

(** *** At most one ticking loop *)

Lemma clear_own_timer (w : World) :
  one_loop w -> timers (clearInterval (timerId w) w) = [].
Proof.
  unfold one_loop; destruct w as [s [h|] tms nh ob]; cbn; intros ->; cbn.
  - now rewrite Pos.eqb_refl.
  - reflexivity.
Qed.

Lemma onmessage_one_loop (r : Request) (w : World) :
  one_loop w -> one_loop (onmessage r w).
Proof.
  intros H; pose proof (clear_own_timer w H) as Hc; revert H Hc.
  unfold one_loop; destruct w as [s [h|] tms nh ob], r; cbn;
    intros -> Hc; cbn in *; try reflexivity; try rewrite Hc; reflexivity.
Qed.

Lemma tick_one_loop (w : World) : one_loop w -> one_loop (tick w).
Proof.
  intros H. destruct (tick_unfold w) as (_ & _ & _ & Hdone & Hgo).
  unfold one_loop.
  destruct (totalTimeRemaining (state w) - 1 <=? 0).
  - destruct (Hdone eq_refl) as [-> ->]. now apply clear_own_timer.
  - destruct (Hgo eq_refl) as [-> ->]. exact H.
Qed.

Lemma run_one_loop (ins : list Input) (w : World) :
  run ins initial = Some w -> one_loop w.
Proof.
  intros Hrun.
  apply (run_preserves (fun _ => True) one_loop) with (ins := ins) (w := initial);
    [ | now apply Forall_forall | reflexivity | exact Hrun ].
  intros i w0 w1 _ Hw Hs.
  destruct (step_cases _ _ _ Hs) as [(r & _ & ->)|(h & _ & _ & ->)].
  - now apply onmessage_one_loop.
  - now apply tick_one_loop.
Qed.

(** *** What a tick posts is never negative *)

Lemma tick_posts_never_negative (s : State) : never_negative (tick_posts s).
Proof.
  unfold never_negative, tick_posts, tick_state.
  destruct (totalTimeRemaining s - 1 <=? 0) eqn:HT.
  - repeat constructor; cbn; lia.
  - apply Z.leb_gt in HT.
    apply Forall_app; split.
    + destruct ((0 <? currentIntervalTime s) && (currentIntervalTime s <=? 3));
        repeat constructor; cbn; lia.
    + destruct (currentIntervalTime s - 1 <? 0); repeat constructor; cbn; lia.
Qed.

Lemma step_posts_ok (i : Input) (w w' : World) :
  nonneg_payload i -> posts_ok w -> step i w = Some w' -> posts_ok w'.
Proof.
  intros Hi [HD Hout] Hs. unfold posts_ok, never_negative in *.
  destruct (step_cases _ _ _ Hs) as [(r & -> & ->)|(h & _ & _ & ->)].
  - destruct w as [[c t n L D] tid tms nh ob]; cbn in *.
    destruct r as [p|p| | |]; cbn in *.
    + split; [lia | exact Hout].
    + split; [exact HD | exact Hout].
    + destruct tid; cbn; split; assumption.
    + destruct tid; cbn; split; assumption.
    + destruct tid; cbn; (split; [exact HD|]);
        apply Forall_app; split; try exact Hout;
        repeat constructor; cbn; lia.
  - destruct (tick_unfold w) as (Hst & Hob & _).
    split.
    + rewrite Hst. unfold tick_state.
      destruct (_ <=? 0); [|destruct (_ <? 0)]; exact HD.
    + rewrite Hob. apply Forall_app; split;
        [exact Hout | apply tick_posts_never_negative].
Qed.

Lemma run_posts_ok (ins : list Input) (w : World) :
  Forall nonneg_payload ins -> run ins initial = Some w -> posts_ok w.
Proof.
  intros Hok Hrun.
  apply (run_preserves nonneg_payload posts_ok step_posts_ok ins initial);
    try assumption.
  split; [cbn; lia | constructor].
Qed.

(** The restriction to payloads without negative settings matters only for
    the TICK that RESET posts: configured with a negative duration, which
    the page never sends, the worker would post it. *)
Lemma reset_posts_configured_duration :
  forall w : World,
    skipn (length (outbox w)) (outbox (onmessage RESET w))
    = [mkPosted TICK (state (onmessage RESET w))]
    /\ totalTimeRemaining (state (onmessage RESET w))
       = totalDuration (state w) * 60.
Proof.
  intros [[c t n L D] [h|] tms nh ob]; cbn;
    (split; [apply skipn_length_app | reflexivity]).
Qed.

Lemma run_app (ins1 ins2 : list Input) (w : World) :
  run (ins1 ++ ins2) w
  = match run ins1 w with
    | Some w' => run ins2 w'
    | None => None
    end.
Proof.
  revert w; induction ins1 as [|i ins1 IH]; intros w; cbn; [reflexivity|].
  destruct (step i w); [apply IH | reflexivity].
Qed.

(** Without the restriction on INIT_STATE: only the total duration of a
    CONFIGURE reaches a posted message by another way than through [tick]. *)
Lemma step_keeps_posts_ok (i : Input) (w w' : World) :
  configures_nonneg i -> posts_ok w -> step i w = Some w' -> posts_ok w'.
Proof.
  intros Hi [HD Hout] Hs. unfold posts_ok, never_negative in *.
  destruct (step_cases _ _ _ Hs) as [(r & -> & ->)|(h & _ & _ & ->)].
  - destruct w as [[c t n L D] tid tms nh ob]; cbn in *.
    destruct r as [p|p| | |]; cbn in *.
    + split; [exact Hi | exact Hout].
    + split; [exact HD | exact Hout].
    + destruct tid; cbn; split; assumption.
    + destruct tid; cbn; split; assumption.
    + destruct tid; cbn; (split; [exact HD|]);
        apply Forall_app; split; try exact Hout;
        repeat constructor; cbn; lia.
  - destruct (tick_unfold w) as (Hst & Hob & _).
    split.
    + rewrite Hst. unfold tick_state.
      destruct (_ <=? 0); [|destruct (_ <? 0)]; exact HD.
    + rewrite Hob. apply Forall_app; split;
        [exact Hout | apply tick_posts_never_negative].
Qed.

Lemma run_keeps_posts_ok (ins : list Input) (w : World) :
  Forall configures_nonneg ins -> run ins initial = Some w -> posts_ok w.
Proof.
  intros Hok Hrun.
  apply (run_preserves configures_nonneg posts_ok step_keeps_posts_ok
           ins initial); try assumption.
  split; [cbn; lia | constructor].
Qed.

(** [clearInterval] leaves no timer under the handle it was given. *)
Lemma cleared_timer_inactive (h : positive) (tms : list positive) :
  existsb (Pos.eqb h) (filter (fun k => negb (Pos.eqb k h)) tms) = false.
Proof.
  induction tms as [|k tms IH]; cbn; [reflexivity|].
  destruct (Pos.eqb k h) eqn:E; cbn; [exact IH|].
  rewrite IH, orb_false_r, Pos.eqb_sym. exact E.
Qed.

(** C1, as stated, fails in its last part.  Configured with a negative
    total duration, the worker answers RESET with a TICK whose
    [totalTimeRemaining] is negative: -60 for a duration of -1. *)
Lemma reset_posts_negative_total :
  exists w : World,
    run [Message (CONFIGURE (mkPayload 60 (-1))); Message RESET] initial
    = Some w
    /\ outbox w = [mkPosted TICK (mkState 60 (-60) 0 60 (-1))]
    /\ ~ never_negative (outbox w).
Proof.
  eexists; split; [vm_compute; reflexivity|].
  split; [reflexivity|].
  intros H. inversion H as [|e es He Hes]; subst. cbn in He. lia.
Qed.

(** C1, amended.  In every state of the worker, reachable or not: if
    decrementing [totalTimeRemaining] makes it zero or less, the tick sets
    [totalTimeRemaining] and [currentIntervalTime] to 0, posts exactly one
    message, COMPLETED, carrying that state, resets [timerId] and cancels
    the timer [timerId] referred to, which leaves no timer at all when that
    was the only one.  Every message a tick posts carries a
    [totalTimeRemaining] that is not negative.  And in a state the worker
    reaches from its initial state by messages none of which is a CONFIGURE
    with a negative total duration, and by firings of its timer, there is at
    most the one timer, and no message posted so far, by a tick or by
    RESET, carries a negative [totalTimeRemaining]. *)
Theorem tick_completes_at_zero_never_negative :
  forall w : World,
    (totalTimeRemaining (state w) - 1 <= 0 ->
       totalTimeRemaining (state (tick w)) = 0
       /\ currentIntervalTime (state (tick w)) = 0
       /\ tick_events w = [mkPosted COMPLETED (state (tick w))]
       /\ timerId (tick w) = None
       /\ (forall h, timerId w = Some h -> active h (tick w) = false)
       /\ (one_loop w -> timers (tick w) = []))
    /\ never_negative (tick_events w)
    /\ (forall ins : list Input,
           Forall configures_nonneg ins ->
           run ins initial = Some w ->
           one_loop w
           /\ never_negative (outbox w)
           /\ never_negative (outbox (tick w))).
Proof.
  intros w.
  destruct (tick_unfold w) as (Hst & Hob & _ & Hdone & _).
  split; [|split].
  - intros HT. apply Z.leb_le in HT.
    destruct (Hdone HT) as [Htid Htms].
    rewrite tick_events_eq, Hst.
    unfold tick_posts, tick_state; rewrite HT; cbn.
    repeat split; try reflexivity; try assumption.
    + intros h Hh. unfold active. rewrite Htms, Hh. cbn.
      apply cleared_timer_inactive.
    + intros Hloop. rewrite Htms. now apply clear_own_timer.
  - rewrite tick_events_eq. apply tick_posts_never_negative.
  - intros ins Hok Hrun.
    assert (Hposts : posts_ok w) by (apply (run_keeps_posts_ok ins); assumption).
    split; [eapply run_one_loop; eassumption|].
    split; [apply Hposts|].
    rewrite Hob. apply Forall_app; split;
      [apply Hposts | apply tick_posts_never_negative].
Qed.

(** The last second of a one-minute session: the countdown stands at 1 and
    the tick takes it to 0. *)
Lemma tick_completes_at_zero_never_negative_witness :
  let w := ticks 59 (onmessage START
                       (onmessage (CONFIGURE (mkPayload 60 1))
                          (onmessage (INIT_STATE (mkPayload 60 1)) initial))) in
  totalTimeRemaining (state w) = 1
  /\ totalTimeRemaining (state (tick w)) = 0
  /\ currentIntervalTime (state (tick w)) = 0
  /\ tick_events w = [mkPosted COMPLETED (state (tick w))]
  /\ timerId (tick w) = None
  /\ timers (tick w) = []
  /\ never_negative (outbox (tick w)).
Proof.
  intros w.
  destruct (tick_completes_at_zero_never_negative w) as (Hend & _ & Hreach).
  destruct Hend as (Ht & Hc & He & Hid & _ & Htm);
    [vm_compute; discriminate|].
  destruct (Hreach (Message (INIT_STATE (mkPayload 60 1))
                      :: Message (CONFIGURE (mkPayload 60 1))
                      :: Message START :: repeat (Fire 1%positive) 59))
    as (Hloop & _ & Hnn).
  { cbn [repeat].
    repeat (apply Forall_cons; [cbn; first [exact I | lia]|]).
    apply Forall_nil. }
  { vm_compute. reflexivity. }
  split; [vm_compute; reflexivity|].
  split; [exact Ht|]. split; [exact Hc|]. split; [exact He|].
  split; [exact Hid|]. split; [exact (Htm Hloop) | exact Hnn].
Defined.

(** *** Rollover *)

(** C3, as stated, fails.  The session of the defaults, one minute past
    its start (INIT_STATE, CONFIGURE, START and 60 ticks): the next tick
    rolls the interval over and leaves [currentIntervalTime] at 59, not at
    the configured interval length, 60. *)
Lemma rollover_not_interval_length :
  exists w : World,
    run (Message (INIT_STATE (mkPayload 60 20))
           :: Message (CONFIGURE (mkPayload 60 20))
           :: Message START :: repeat (Fire 1%positive) 60) initial = Some w
    /\ step (Fire 1%positive) w = Some (tick w)
    /\ currentIntervalTime (state w) - 1 < 0
    /\ posts INTERVAL_END (tick_events w) = true
    /\ intervalLength (state (tick w)) = 60
    /\ currentIntervalTime (state (tick w)) = 59
    /\ currentIntervalTime (state (tick w)) <> intervalLength (state (tick w)).
Proof.
  eexists; split; [vm_compute; reflexivity|].
  vm_compute; repeat split; discriminate.
Qed.

(** C3, amended.  In every tick that does not end the session and in which
    [currentIntervalTime] goes below zero after the decrement,
    [currentIntervalTime] is wrapped to the configured interval length
    minus one. *)
Theorem rollover_wraps_to_length_minus_one :
  forall w : World,
    0 < totalTimeRemaining (state w) - 1 ->
    currentIntervalTime (state w) - 1 < 0 ->
    currentIntervalTime (state (tick w)) = intervalLength (state w) - 1
    /\ intervalLength (state (tick w)) = intervalLength (state w).
Proof.
  intros w HT Hc. rewrite tick_state_eq. unfold tick_state.
  apply Z.leb_gt in HT; apply Z.ltb_lt in Hc; rewrite HT, Hc.
  split; reflexivity.
Qed.

Lemma rollover_wraps_to_length_minus_one_witness :
  let w := mkWorld (mkState 0 1140 0 60 20) (Some 1%positive) [1%positive]
                   2%positive [] in
  currentIntervalTime (state (tick w)) = 60 - 1
  /\ intervalLength (state (tick w)) = 60.
Proof.
  apply (rollover_wraps_to_length_minus_one
           (mkWorld (mkState 0 1140 0 60 20) (Some 1%positive) [1%positive]
                    2%positive [])); cbn; lia.
Defined.

(** *** The interval counter *)

(** C4.  A tick that posts INTERVAL_END leaves [intervalsCompleted] one
    higher; every other tick leaves it as it was; and the tick that posts
    COMPLETED posts no INTERVAL_END, so it is among the latter. *)
Theorem counter_increments_exactly_on_interval_end :
  forall w : World,
    intervalsCompleted (state (tick w))
    = (if posts INTERVAL_END (tick_events w)
       then intervalsCompleted (state w) + 1
       else intervalsCompleted (state w))
    /\ posts COMPLETED (tick_events w) && posts INTERVAL_END (tick_events w)
       = false.
Proof.
  intros w. rewrite tick_events_eq, tick_state_eq.
  unfold tick_posts, tick_state.
  destruct (totalTimeRemaining (state w) - 1 <=? 0); [split; reflexivity|].
  destruct ((0 <? currentIntervalTime (state w))
            && (currentIntervalTime (state w) <=? 3));
    destruct (currentIntervalTime (state w) - 1 <? 0); split; reflexivity.
Qed.

(** *** The pre-boundary warning *)

(** C5, as stated, fails.  The last second of a one-minute session with
    the default interval (INIT_STATE, CONFIGURE, START and 59 ticks): the
    interval remaining is 1, within [1,3], and the next tick, which ends the
    session, posts COMPLETED and no COUNTDOWN. *)
Lemma no_countdown_on_completing_tick :
  exists w : World,
    run (Message (INIT_STATE (mkPayload 60 1))
           :: Message (CONFIGURE (mkPayload 60 1))
           :: Message START :: repeat (Fire 1%positive) 59) initial = Some w
    /\ step (Fire 1%positive) w = Some (tick w)
    /\ 1 <= currentIntervalTime (state w) <= 3
    /\ posts COUNTDOWN (tick_events w) = false
    /\ tick_events w = [mkPosted COMPLETED (mkState 0 0 0 60 1)].
Proof.
  eexists; split; [vm_compute; reflexivity|].
  vm_compute; repeat split; discriminate.
Qed.

(** C5, amended.  A tick posts COUNTDOWN exactly when it does not end the
    session and the interval remaining before the decrement lies in [1,3];
    the message is then posted once, before the interval is decremented. *)
Theorem countdown_exactly_in_last_three_seconds :
  forall w : World,
    posts COUNTDOWN (tick_events w)
    = negb (totalTimeRemaining (state w) - 1 <=? 0)
      && ((1 <=? currentIntervalTime (state w))
          && (currentIntervalTime (state w) <=? 3))
    /\ filter (fun e => EventType_eqb (type e) COUNTDOWN) (tick_events w)
       = (if posts COUNTDOWN (tick_events w)
          then [mkPosted COUNTDOWN
                  (set_totalTimeRemaining (totalTimeRemaining (state w) - 1)
                     (state w))]
          else []).
Proof.
  intros w. rewrite tick_events_eq. unfold tick_posts.
  destruct (totalTimeRemaining (state w) - 1 <=? 0); [split; reflexivity|].
  replace (0 <? currentIntervalTime (state w))
    with (1 <=? currentIntervalTime (state w))
    by (destruct (Z.leb_spec 1 (currentIntervalTime (state w))),
                 (Z.ltb_spec 0 (currentIntervalTime (state w)));
        (reflexivity || lia)).
  destruct ((1 <=? currentIntervalTime (state w))
            && (currentIntervalTime (state w) <=? 3));
    destruct (currentIntervalTime (state w) - 1 <? 0); split; reflexivity.
Qed.

(** *** START and PAUSE *)

Lemma active_one_loop (w : World) (h : positive) :
  one_loop w -> active h w = true -> timerId w = Some h.
Proof.
  unfold one_loop, active. destruct (timerId w) as [k|]; intros ->; cbn.
  - rewrite orb_false_r. intros E; apply Pos.eqb_eq in E. now subst.
  - discriminate.
Qed.

(** C9.  In every state the worker reaches, START with [timerId] set
    changes nothing, a second START after a START changes nothing, at most
    one interval timer exists, and a timer that can fire is the one
    [timerId] holds. *)
Theorem start_idempotent_one_loop :
  forall (ins : list Input) (w : World),
    run ins initial = Some w ->
    (timerId w <> None -> onmessage START w = w)
    /\ onmessage START (onmessage START w) = onmessage START w
    /\ (length (timers w) <= 1)%nat
    /\ (forall h, active h w = true -> timerId w = Some h).
Proof.
  intros ins w Hrun.
  assert (Hloop : one_loop w) by (eapply run_one_loop; eassumption).
  repeat split.
  - destruct w as [s [h|] tms nh ob]; cbn; [reflexivity | congruence].
  - destruct w as [s [h|] tms nh ob]; reflexivity.
  - rewrite Hloop. destruct (timerId w); cbn; lia.
  - intros h. now apply active_one_loop.
Qed.

Lemma start_idempotent_one_loop_witness :
  let w := onmessage START initial in
  (timerId w <> None -> onmessage START w = w)
  /\ onmessage START (onmessage START w) = onmessage START w
  /\ (length (timers w) <= 1)%nat
  /\ (forall h, active h w = true -> timerId w = Some h).
Proof.
  apply (start_idempotent_one_loop [Message START]). reflexivity.
Defined.

(** C10.  In every state the worker reaches, PAUSE leaves [state] (so the
    three counters) and the posted messages as they are, resets [timerId]
    and leaves no timer that could fire; START after it creates one timer
    and leaves [state] as it was, so the next tick does what the tick of
    the paused state would have done. *)
Theorem pause_freezes_countdown :
  forall (ins : list Input) (w : World),
    run ins initial = Some w ->
    let paused := onmessage PAUSE w in
    let resumed := onmessage START paused in
    state paused = state w
    /\ outbox paused = outbox w
    /\ timerId paused = None
    /\ timers paused = []
    /\ (forall h, step (Fire h) paused = None)
    /\ state resumed = state w
    /\ timers resumed = [nextHandle w]
    /\ timerId resumed = Some (nextHandle w)
    /\ state (tick resumed) = state (tick w)
    /\ tick_events resumed = tick_events w.
Proof.
  intros ins w Hrun.
  assert (Hloop : one_loop w) by (eapply run_one_loop; eassumption).
  pose proof (clear_own_timer w Hloop) as Hc.
  cbn zeta. rewrite !tick_events_eq, !tick_state_eq.
  destruct w as [s [h|] tms nh ob]; cbn in *.
  - rewrite Hc. repeat split; reflexivity.
  - unfold one_loop in Hloop; cbn in Hloop; subst tms.
    repeat split; reflexivity.
Qed.

Lemma pause_freezes_countdown_witness :
  let w := tick (onmessage START
                   (onmessage (INIT_STATE (mkPayload 60 20)) initial)) in
  state (onmessage PAUSE w) = mkState 59 1199 0 60 20
  /\ timers (onmessage PAUSE w) = []
  /\ state (tick (onmessage START (onmessage PAUSE w))) = state (tick w).
Proof.
  pose proof (pause_freezes_countdown
                [Message (INIT_STATE (mkPayload 60 20)); Message START;
                 Fire 1%positive] _ eq_refl)
    as (Hs & _ & _ & Ht & _ & _ & _ & _ & Hn & _).
  split; [exact Hs | split; [exact Ht | exact Hn]].
Defined.

(** *** The rhythm of interval boundaries *)

Lemma ticks_succ_r (n : nat) (w : World) : ticks (S n) w = tick (ticks n w).
Proof.
  revert w; induction n as [|n IH]; intros w; [reflexivity|].
  change (ticks (S (S n)) w) with (ticks (S n) (tick w)).
  now rewrite IH.
Qed.

(** The countdown [m] ticks after the interval remaining was set to [L]
    in a worker configured with the interval length [C], with [T] seconds of
    session left and while the session lasts: [L - m] up to tick [L], then
    [C - 1 - (m - L - 1) mod C]. *)
Lemma countdown_after_ticks (L C T : Z) (w : World) (m : nat) :
  0 <= L ->
  1 <= C ->
  Z.of_nat m < T ->
  currentIntervalTime (state w) = L ->
  totalTimeRemaining (state w) = T ->
  intervalLength (state w) = C ->
  let s := state (ticks m w) in
  totalTimeRemaining s = T - Z.of_nat m
  /\ intervalLength s = C
  /\ currentIntervalTime s
     = (if Z.of_nat m <=? L then L - Z.of_nat m
        else C - 1 - (Z.of_nat m - L - 1) mod C).
Proof.
  intros HL HC Hm Hc Ht Hl. cbn zeta.
  induction m as [|m IH].
  - cbn. repeat split; try lia.
    destruct (0 <=? L) eqn:E; [lia | apply Z.leb_gt in E; lia].
  - destruct IH as (IHt & IHl & IHc); [lia|].
    rewrite ticks_succ_r, tick_state_eq. unfold tick_state.
    rewrite IHt, IHl, IHc.
    destruct (T - Z.of_nat m - 1 <=? 0) eqn:E1;
      [apply Z.leb_le in E1; lia|].
    replace (Z.of_nat (S m)) with (Z.of_nat m + 1) by lia.
    destruct (Z.of_nat m <=? L) eqn:E0;
      [apply Z.leb_le in E0 | apply Z.leb_gt in E0].
    + destruct (L - Z.of_nat m - 1 <? 0) eqn:E2;
        [apply Z.ltb_lt in E2 | apply Z.ltb_ge in E2]; cbn;
        (split; [lia | split; [reflexivity|]]).
      * assert (Z.of_nat m = L) as -> by lia.
        destruct (L + 1 <=? L) eqn:E3; [apply Z.leb_le in E3; lia|].
        replace (L + 1 - L - 1) with 0 by lia.
        rewrite Z.mod_0_l by lia. lia.
      * destruct (Z.of_nat m + 1 <=? L) eqn:E3;
          [lia | apply Z.leb_gt in E3; lia].
    + pose proof (Z.mod_pos_bound (Z.of_nat m - L - 1) C ltac:(lia)) as Hr.
      pose proof (Z.div_mod (Z.of_nat m - L - 1) C ltac:(lia)) as Hq.
      destruct (Z.of_nat m + 1 <=? L) eqn:E3; [apply Z.leb_le in E3; lia|].
      replace (Z.of_nat m + 1 - L - 1) with (Z.of_nat m - L) by lia.
      destruct (C - 1 - (Z.of_nat m - L - 1) mod C - 1 <? 0) eqn:E2;
        [apply Z.ltb_lt in E2 | apply Z.ltb_ge in E2]; cbn;
        (split; [lia | split; [reflexivity|]]).
      * assert ((Z.of_nat m - L) mod C = 0) as ->; [|lia].
        symmetry.
        apply (Z.mod_unique_pos _ _ ((Z.of_nat m - L - 1) / C + 1)); lia.
      * assert ((Z.of_nat m - L) mod C = (Z.of_nat m - L - 1) mod C + 1) as ->;
          [|lia].
        symmetry.
        apply (Z.mod_unique_pos _ _ ((Z.of_nat m - L - 1) / C)); lia.
Qed.

(** INIT_STATE and CONFIGURE assign different fields, so it does not matter
    which of the two the worker receives first. *)
Lemma INIT_STATE_CONFIGURE_commute (p q : Payload) (w : World) :
  onmessage (INIT_STATE p) (onmessage (CONFIGURE q) w)
  = onmessage (CONFIGURE q) (onmessage (INIT_STATE p) w).
Proof. destruct w as [[c t n L D] tid tms nh ob]; reflexivity. Qed.

(** C8, as stated, fails.  INIT_STATE sets the interval remaining and
    leaves the configured interval length alone.  After INIT_STATE with an
    interval length of 5 on a worker still configured with its initial
    length, 60, the first INTERVAL_END comes on tick 6, but none comes on
    tick 11: the second one comes on tick 66, 60 ticks after the first. *)
Lemma second_boundary_follows_configured_length :
  exists w6 w11 w66 : World,
    run (Message (INIT_STATE (mkPayload 5 20)) :: Message START
           :: repeat (Fire 1%positive) 5) initial = Some w6
    /\ run (repeat (Fire 1%positive) 5) w6 = Some w11
    /\ run (repeat (Fire 1%positive) 55) w11 = Some w66
    /\ posts INTERVAL_END (tick_events w6) = true
    /\ posts INTERVAL_END (tick_events w11) = false
    /\ posts INTERVAL_END (tick_events w66) = true
    /\ forallb (fun m => negb (posts INTERVAL_END (tick_events (ticks m w6))))
               (seq 1 59) = true.
Proof.
  do 3 eexists.
  split; [vm_compute; reflexivity|].
  split; [vm_compute; reflexivity|].
  split; [vm_compute; reflexivity|].
  repeat split; vm_compute; reflexivity.
Qed.

(** C8, amended.  Let INIT_STATE with an interval length [L] reach a worker
    configured with the interval length [C], both between 1 and 2^53 - 1,
    for a session of at most 2^53 - 1 seconds.  As long as the session does
    not end, tick number [m + 1] after it posts INTERVAL_END exactly when
    [m + 1 = L + 1 + k * C] for some [k = 0, 1, 2, ...]: first on tick
    [L + 1], then every [C] ticks.  [C] is [L] when a CONFIGURE with the
    same payload accompanies the INIT_STATE, before it or
    ([INIT_STATE_CONFIGURE_commute]) after it as the page sends it; then
    every later boundary comes [L] ticks after the one before. *)
Theorem first_boundary_after_L_plus_1_then_every_L :
  forall (p : Payload) (w : World) (m : nat),
    1 <= p_intervalLength p <= Double.MAX_SAFE_INTEGER ->
    1 <= intervalLength (state w) <= Double.MAX_SAFE_INTEGER ->
    p_totalDuration p * 60 <= Double.MAX_SAFE_INTEGER ->
    Z.of_nat m + 1 < p_totalDuration p * 60 ->
    let w0 := onmessage (INIT_STATE p) w in
    posts INTERVAL_END (tick_events (ticks m w0)) = true
    <-> exists k : nat,
          Z.of_nat m + 1
          = p_intervalLength p + 1 + Z.of_nat k * intervalLength (state w).
Proof.
  intros [L D] w m [HL _] [HC _] _ Hm; cbn in HL, Hm; cbn zeta.
  set (w0 := onmessage _ _).
  remember (intervalLength (state w)) as C eqn:EC.
  destruct (countdown_after_ticks L C (D * 60) w0 m
              ltac:(lia) HC ltac:(lia))
    as (Ht & Hl & Hc);
    try (subst w0 C; destruct w as [[c t n L0 D0] tid tms nh ob]; reflexivity).
  cbn [p_intervalLength].
  rewrite tick_events_eq. unfold tick_posts.
  rewrite Ht, Hc.
  destruct (D * 60 - Z.of_nat m - 1 <=? 0) eqn:E1;
    [apply Z.leb_le in E1; lia|].
  assert (Hposts : forall (pre : bool) t s,
             posts INTERVAL_END
               ((if pre then [mkPosted COUNTDOWN s] else [])
                ++ [mkPosted t (tick_state (state (ticks m w0)))])
             = EventType_eqb t INTERVAL_END).
  { intros [|] t s; cbn; now rewrite orb_false_r. }
  rewrite Hposts.
  destruct (Z.of_nat m <=? L) eqn:E0;
    [apply Z.leb_le in E0 | apply Z.leb_gt in E0].
  - destruct (L - Z.of_nat m - 1 <? 0) eqn:E2;
      [apply Z.ltb_lt in E2 | apply Z.ltb_ge in E2]; cbn.
    + split; [intros _ | reflexivity]. exists 0%nat. lia.
    + split; [discriminate|]. intros [k Hk]. nia.
  - pose proof (Z.mod_pos_bound (Z.of_nat m - L - 1) C ltac:(lia)) as Hr.
    pose proof (Z.div_mod (Z.of_nat m - L - 1) C ltac:(lia)) as Hq.
    assert (0 <= (Z.of_nat m - L - 1) / C) as Hq0
        by (apply Z.div_pos; lia).
    destruct (C - 1 - (Z.of_nat m - L - 1) mod C - 1 <? 0) eqn:E2;
      [apply Z.ltb_lt in E2 | apply Z.ltb_ge in E2]; cbn.
    + split; [intros _ | reflexivity].
      exists (Z.to_nat ((Z.of_nat m - L - 1) / C + 1)).
      rewrite Z2Nat.id by lia. nia.
    + split; [discriminate|]. intros [k Hk]. exfalso.
      assert (1 <= Z.of_nat k) by nia.
      assert ((Z.of_nat m - L - 1) mod C = C - 1); [|lia].
      symmetry. apply (Z.mod_unique_pos _ _ (Z.of_nat k - 1)); nia.
Qed.

(** Interval length 2 in a session of one minute, configured as the page
    does: tick 5 = 2 + 1 + 1 * 2 ends an interval. *)
Lemma first_boundary_after_L_plus_1_then_every_L_witness :
  posts INTERVAL_END
    (tick_events
       (ticks 4 (onmessage (INIT_STATE (mkPayload 2 1))
                   (onmessage (CONFIGURE (mkPayload 2 1)) initial))))
  = true.
Proof.
  apply (first_boundary_after_L_plus_1_then_every_L
           (mkPayload 2 1) (onmessage (CONFIGURE (mkPayload 2 1)) initial) 4).
  - unfold Double.MAX_SAFE_INTEGER; cbn; lia.
  - unfold Double.MAX_SAFE_INTEGER; cbn; lia.
  - unfold Double.MAX_SAFE_INTEGER; cbn; lia.
  - cbn; lia.
  - exists 1%nat. reflexivity.
Defined.

End WorkerSpec.

(** ** The model over [Z] and the arithmetic on doubles *)

Module EngineSpec.
Import Worker.

Lemma round_exact (x : Z) : - 2 ^ 53 <= x <= 2 ^ 53 -> Double.round x = x.
Proof.
  intros H. unfold Double.round.
  destruct (Z.abs x <=? 2 ^ 53) eqn:E; [reflexivity|].
  apply Z.leb_gt in E. lia.
Qed.

Lemma round_pred (x : Z) : Double.safe x -> Double.round (x - 1) = x - 1.
Proof.
  unfold Double.safe, Double.MAX_SAFE_INTEGER. intros H.
  apply round_exact. change (2 ^ 53) with 9007199254740992. lia.
Qed.

Lemma round_succ (x : Z) : Double.safe x -> Double.round (x + 1) = x + 1.
Proof.
  unfold Double.safe, Double.MAX_SAFE_INTEGER. intros H.
  apply round_exact. change (2 ^ 53) with 9007199254740992. lia.
Qed.

Lemma round_safe (x : Z) : Double.safe x -> Double.round x = x.
Proof.
  unfold Double.safe, Double.MAX_SAFE_INTEGER. intros H.
  apply round_exact. change (2 ^ 53) with 9007199254740992. lia.
Qed.

(** Within the bound the worker's arithmetic is exact: the model over [Z]
    computes what the rounded arithmetic computes. *)
Lemma tick_state_exact (s : State) :
  Double.safe (totalTimeRemaining s) ->
  Double.safe (currentIntervalTime s) ->
  Double.safe (intervalLength s) ->
  Double.safe (intervalsCompleted s) ->
  Engine.tick_state s = tick_state s.
Proof.
  intros Ht Hc Hl Hn. unfold Engine.tick_state, tick_state.
  now rewrite (round_pred _ Ht), (round_pred _ Hc), (round_pred _ Hl),
    (round_succ _ Hn).
Qed.

Lemma init_state_exact (p : Payload) (w : World) :
  Double.safe (p_totalDuration p * 60) ->
  Engine.init_state p (state w) = state (onmessage (INIT_STATE p) w).
Proof.
  intros H. unfold Engine.init_state. rewrite (round_safe _ H).
  destruct w as [[c t n L D] tid tms nh ob]; reflexivity.
Qed.

Lemma reset_state_exact (w : World) :
  Double.safe (totalDuration (state w) * 60) ->
  Engine.reset_state (state w) = state (onmessage RESET w).
Proof.
  intros H. unfold Engine.reset_state. rewrite (round_safe _ H).
  destruct w as [[c t n L D] [h|] tms nh ob]; reflexivity.
Qed.

(** Beyond the bound it is not.  A total duration of 2^53 - 1 minutes:
    the sixtyfold is rounded, and the decrement of a tick is absorbed by the
    rounding, so that the countdown does not move, where the model over [Z]
    takes one off. *)
Lemma decrement_absorbed_beyond_the_bound :
  let s := Engine.init_state (mkPayload 60 Double.MAX_SAFE_INTEGER)
                             (state initial) in
  Double.MAX_SAFE_INTEGER * 60 = 540431955284459460
  /\ totalTimeRemaining s = 540431955284459456
  /\ totalTimeRemaining (Engine.tick_state s) = totalTimeRemaining s
  /\ totalTimeRemaining (tick_state s) = totalTimeRemaining s - 1.
Proof. vm_compute. repeat split. Qed.

(** An interval length of 2^54 seconds: the interval remaining does not
    move either and stays at the interval length. *)
Lemma interval_decrement_absorbed_beyond_the_bound :
  let s := mkState (2 ^ 54) 1200 0 (2 ^ 54) 20 in
  currentIntervalTime (Engine.tick_state s) = intervalLength s
  /\ currentIntervalTime (tick_state s) = intervalLength s - 1.
Proof. vm_compute. repeat split. Qed.

End EngineSpec.

(** ** Properties of the worker as the page drives it *)

Module AppSpec.
Import App.

Section Sessions.
Variable ok : Task -> Prop.
Variable P : Sys -> Prop.
Hypothesis P_perform :
  forall t y y', ok t -> P y -> perform t y = Some y' -> P y'.

Lemma session_preserves (ts : list Task) :
  forall y y', Forall ok ts -> P y -> session ts y = Some y' -> P y'.
Proof.
  induction ts as [|t ts IH]; intros y y' Hok Hy Hrun; cbn in Hrun.
  - now injection Hrun as <-.
  - inversion Hok as [|? ? Ht Hts]; subst.
    destruct (perform t y) as [y1|] eqn:Hp; [|discriminate].
    apply (IH y1); [assumption | eapply P_perform; eassumption | assumption].
Qed.
End Sessions.

(** The handlers never put a negative number into the settings, so no
    payload of the page carries one. *)
Lemma handlers_nonneg (t : Task) (y y' : Sys) :
  offered t ->
  0 <= intervalLength (settings y) /\ 0 <= totalDuration (settings y) ->
  perform t y = Some y' ->
  0 <= intervalLength (settings y') /\ 0 <= totalDuration (settings y').
Proof.
  intros Ht [HL HD] Hp.
  destruct t; cbn in *; try (injection Hp as <-; cbn; lia).
  destruct (Worker.active h (worker y)); [|discriminate].
  injection Hp as <-; cbn; lia.
Qed.

(** Every session of the page is a run of the worker's event loop whose
    payloads carry no negative setting. *)
Lemma perform_is_run (t : Task) (y y' : Sys) :
  offered t ->
  0 <= intervalLength (settings y) /\ 0 <= totalDuration (settings y) ->
  perform t y = Some y' ->
  exists ins,
    Forall Worker.nonneg_payload ins
    /\ Worker.run ins (worker y) = Some (worker y').
Proof.
  intros Ht Hs Hp.
  assert (Hedit : forall s,
             0 <= intervalLength s /\ 0 <= totalDuration s ->
             exists ins,
               Forall Worker.nonneg_payload ins
               /\ Worker.run ins (worker y) = Some (worker (edit s y))).
  { intros s Hs'.
    exists [Worker.Message (Worker.INIT_STATE (payloadOf s));
            Worker.Message (Worker.CONFIGURE (payloadOf s))].
    split; [repeat constructor; cbn; lia | reflexivity]. }
  destruct t as [parsed|v|parsed|v|status| | | |h]; cbn in Hp, Ht.
  1-4: injection Hp as <-; apply Hedit; cbn; lia.
  - injection Hp as <-. destruct status; [apply (Hedit _ Hs)| | |];
      (exists [Worker.Message (Worker.CONFIGURE (payloadOf (settings y)))];
       split; [repeat constructor; cbn; lia | reflexivity]).
  - injection Hp as <-. exists [Worker.Message Worker.START].
    split; [repeat constructor | reflexivity].
  - injection Hp as <-. exists [Worker.Message Worker.PAUSE].
    split; [repeat constructor | reflexivity].
  - injection Hp as <-. exists [Worker.Message Worker.RESET].
    split; [repeat constructor | reflexivity].
  - exists [Worker.Fire h]. split; [repeat constructor|].
    cbn in *. destruct (Worker.active h (worker y)); [|discriminate].
    now injection Hp as <-.
Qed.

Lemma session_is_run_from (ts : list Task) :
  forall y y',
    Forall offered ts ->
    0 <= intervalLength (settings y) /\ 0 <= totalDuration (settings y) ->
    session ts y = Some y' ->
    exists ins,
      Forall Worker.nonneg_payload ins
      /\ Worker.run ins (worker y) = Some (worker y').
Proof.
  induction ts as [|t ts IH]; intros y y' Hok Hs Hrun; cbn in Hrun.
  - injection Hrun as <-. exists []. split; [constructor | reflexivity].
  - inversion Hok as [|? ? Ht Hts]; subst.
    destruct (perform t y) as [y1|] eqn:Hp; [|discriminate].
    destruct (perform_is_run t y y1 Ht Hs Hp) as (ins1 & Hok1 & Hrun1).
    destruct (IH y1 y' Hts (handlers_nonneg t y y1 Ht Hs Hp) Hrun)
      as (ins2 & Hok2 & Hrun2).
    exists (ins1 ++ ins2). split; [now apply Forall_app|].
    now rewrite WorkerSpec.run_app, Hrun1.
Qed.

Lemma session_is_run (ts : list Task) (y : Sys) :
  Forall offered ts ->
  session ts mounted = Some y ->
  exists ins,
    Forall Worker.nonneg_payload ins
    /\ Worker.run ins Worker.initial = Some (worker y).
Proof.
  intros Hok Hrun.
  destruct (session_is_run_from ts mounted y Hok ltac:(cbn; lia) Hrun)
    as (ins & Hins & Hr).
  exists ([Worker.Message (Worker.CONFIGURE (payloadOf DEFAULT_SETTINGS));
           Worker.Message (Worker.INIT_STATE (payloadOf DEFAULT_SETTINGS));
           Worker.Message (Worker.CONFIGURE (payloadOf DEFAULT_SETTINGS))]
          ++ ins).
  split.
  - apply Forall_app; split; [repeat constructor; cbn; lia | exact Hins].
  - rewrite WorkerSpec.run_app. exact Hr.
Qed.

(** So nothing the worker posts during a session of the page carries a
    negative [totalTimeRemaining]. *)
Lemma session_never_negative (ts : list Task) (y : Sys) :
  Forall offered ts ->
  session ts mounted = Some y ->
  Worker.never_negative (Worker.outbox (worker y)).
Proof.
  intros Hok Hrun.
  destruct (session_is_run ts y Hok Hrun) as (ins & Hins & Hr).
  apply (WorkerSpec.run_posts_ok ins); assumption.
Qed.







(** *** The interval remaining *)

(** C6, as stated, fails.  Once the page is mounted (CONFIGURE, INIT_STATE
    and CONFIGURE with the defaults) the interval remaining is 60, the
    configured interval length itself, outside the half-open range. *)
Lemma interval_time_equals_length_after_INIT_STATE :
  exists w : Worker.World,
    Worker.run [Worker.Message (Worker.CONFIGURE (Worker.mkPayload 60 20));
                Worker.Message (Worker.INIT_STATE (Worker.mkPayload 60 20));
                Worker.Message (Worker.CONFIGURE (Worker.mkPayload 60 20))]
               Worker.initial = Some w
    /\ w = worker mounted
    /\ Worker.currentIntervalTime (Worker.state w) = 60
    /\ Worker.intervalLength (Worker.state w) = 60
    /\ ~ (0 <= Worker.currentIntervalTime (Worker.state w)
             < Worker.intervalLength (Worker.state w)).
Proof.
  eexists; split; [reflexivity|].
  cbn. repeat split; lia.
Qed.

(** Why the amended statement asks for an interval length of at least one
    second: with length 0 (the number field accepts it) the first tick
    rolls over to -1. *)
Lemma interval_time_negative_for_length_zero :
  exists y : Sys,
    session [TypeInterval (Some 0); ClickStart; TimerFires 1%positive] mounted
    = Some y
    /\ Worker.currentIntervalTime (Worker.state (worker y)) = -1.
Proof. eexists; split; reflexivity. Qed.

(** Why it asks for the page's protocol: a CONFIGURE on its own can put the
    interval length below the interval remaining. *)
Lemma interval_time_above_length_after_lone_CONFIGURE :
  exists w : Worker.World,
    Worker.run [Worker.Message (Worker.INIT_STATE (Worker.mkPayload 60 20));
                Worker.Message (Worker.CONFIGURE (Worker.mkPayload 5 20))]
               Worker.initial = Some w
    /\ Worker.currentIntervalTime (Worker.state w) = 60
    /\ Worker.intervalLength (Worker.state w) = 5.
Proof. eexists; split; [reflexivity|]. split; reflexivity. Qed.

Lemma edit_interval_in_range (s : TimerSettings) (y : Sys) :
  1 <= intervalLength s <= Double.MAX_SAFE_INTEGER ->
  interval_in_range (edit s y).
Proof.
  intros HL. destruct y as [s0 [[c t n L D] tid tms nh ob]].
  unfold interval_in_range, configured; cbn. lia.
Qed.

Lemma perform_interval_in_range (t : Task) (y y' : Sys) :
  offered t /\ keeps_interval_positive t /\ interval_safe t ->
  interval_in_range y -> perform t y = Some y' -> interval_in_range y'.
Proof.
  intros (Ht & Hpos & Hsafe) (Hcfg & HL & Hrange) Hp.
  destruct t as [parsed|v|parsed|v|status| | | |h];
    cbn in Hp, Ht, Hpos, Hsafe.
  1-4: injection Hp as <-; apply edit_interval_in_range; cbn;
       unfold Double.MAX_SAFE_INTEGER in *; lia.
  - injection Hp as <-.
    destruct status; [apply (edit_interval_in_range _ y HL)| | |];
      destruct y as [s0 [[c t n L D] tid tms nh ob]];
      unfold interval_in_range, configured in *; cbn in *; lia.
  - injection Hp as <-.
    destruct y as [s0 [[c t n L D] [k|] tms nh ob]];
      unfold interval_in_range, configured in *; cbn in *; lia.
  - injection Hp as <-.
    destruct y as [s0 [[c t n L D] [k|] tms nh ob]];
      unfold interval_in_range, configured in *; cbn in *; lia.
  - injection Hp as <-.
    destruct y as [s0 [[c t n L D] [k|] tms nh ob]];
      unfold interval_in_range, configured in *; cbn in *; lia.
  - destruct (Worker.active h (worker y)); [|discriminate].
    injection Hp as <-.
    unfold interval_in_range, configured in *; cbn.
    rewrite WorkerSpec.tick_state_eq. unfold Worker.tick_state.
    destruct (_ <=? 0); [|destruct (_ <? 0) eqn:E2]; cbn;
      try apply Z.ltb_ge in E2; lia.
Qed.

Lemma mounted_interval_in_range : interval_in_range mounted.
Proof.
  unfold interval_in_range, configured, Double.MAX_SAFE_INTEGER; cbn; lia.
Qed.

(** C6, amended.  In every state the worker reaches while the page drives
    it (INIT_STATE always followed by CONFIGURE with the same payload, any
    other CONFIGURE repeating the settings in force) and the interval length
    is kept between one second and 2^53 - 1 seconds, [currentIntervalTime]
    lies in the closed range from 0 to the interval length; after a tick it
    lies in the half-open range, below the interval length. *)
Theorem interval_time_within_interval_length :
  forall (ts : list Task) (y : Sys),
    Forall offered ts ->
    Forall keeps_interval_positive ts ->
    Forall interval_safe ts ->
    session ts mounted = Some y ->
    let s := Worker.state (worker y) in
    let s' := Worker.state (Worker.tick (worker y)) in
    0 <= Worker.currentIntervalTime s <= Worker.intervalLength s
    /\ 0 <= Worker.currentIntervalTime s' < Worker.intervalLength s'
    /\ Worker.intervalLength s = intervalLength (settings y)
    /\ Worker.intervalLength s <= Double.MAX_SAFE_INTEGER.
Proof.
  intros ts y Hok Hpos Hsafe Hrun.
  assert (Hall : Forall (fun t => offered t /\ keeps_interval_positive t
                                  /\ interval_safe t) ts).
  { rewrite Forall_forall in *. intros t Hin; repeat split; auto. }
  pose proof (session_preserves _ interval_in_range perform_interval_in_range
                ts mounted y Hall mounted_interval_in_range Hrun)
    as ((HcL & _) & HL & Hrange).
  cbn zeta. rewrite WorkerSpec.tick_state_eq. unfold Worker.tick_state.
  destruct (_ <=? 0); [|destruct (_ <? 0) eqn:E2]; cbn;
    try apply Z.ltb_ge in E2; lia.
Qed.

Lemma interval_time_within_interval_length_witness :
  let y := mkSys (mkSettings 5 20)
                 (Worker.onmessage Worker.START
                    (worker (edit (mkSettings 5 20) mounted))) in
  let s := Worker.state (worker y) in
  let s' := Worker.state (Worker.tick (worker y)) in
  0 <= Worker.currentIntervalTime s <= Worker.intervalLength s
  /\ 0 <= Worker.currentIntervalTime s' < Worker.intervalLength s'
  /\ Worker.intervalLength s = 5
  /\ Worker.intervalLength s <= Double.MAX_SAFE_INTEGER.
Proof.
  apply (interval_time_within_interval_length [SlideInterval 5; ClickStart]).
  - repeat constructor; cbn; lia.
  - repeat constructor.
  - repeat constructor.
  - reflexivity.
Defined.

End AppSpec.

(** ** Properties of the audio service *)

Module AudioSpec.
Import Audio.
Local Open Scope nat_scope.

Ltac run_monad :=
  unfold ensureContextReady, initCtx, bind, tryCatch, resumeContext, setCtx,
    getCtx, stateOf, ret, newAudioContext, throw, isMobile, synthesise,
    elementPlay in *.

(** *** The retry *)

Lemma ensure_retry (b : Browser) (w w1 : World) (a : nat) (s' : ContextState) :
  initCtx b w = (Returned tt, w1) ->
  audioCtx w1 = Some a ->
  is_running (nth a (contexts w1) closed) = false ->
  resume b (resumes w1) = false ->
  construct b (length (contexts w1)) = Some s' ->
  ensureContextReady b w
  = (Returned (if resume b (S (resumes w1))
               then Some (length (contexts w1)) else None),
     retried b w1 a s').
Proof.
  intros H1 H2 H3 H4 H5.
  unfold ensureContextReady. unfold bind at 1. rewrite H1.
  unfold bind at 1, getCtx at 1. rewrite H2.
  unfold bind at 1, stateOf at 1. rewrite H3. cbn [negb].
  destruct w1 as [c ti di cs r p es]; cbn in H2, H3, H4, H5 |- *. subst c.
  unfold retried. run_monad; cbn.
  rewrite H4; cbn. rewrite H5; cbn.
  destruct (resume b (S r)); cbn; rewrite <- !app_assoc; reflexivity.
Qed.

(** *** No rejected resume leaves [ensureContextReady] *)

Lemma frame_refl (w : World) : frame w w.
Proof. repeat split. Qed.

Lemma frame_trans (w1 w2 w3 : World) : frame w1 w2 -> frame w2 w3 -> frame w1 w3.
Proof. unfold frame. intuition congruence. Qed.

Lemma contained_framed {A} (c : M A) : contained c -> framed c.
Proof. intros H b w. apply H. Qed.

Lemma framed_bind {A B} (c : M A) (k : A -> M B) :
  framed c -> (forall a, framed (k a)) -> framed (bind c k).
Proof.
  intros Hc Hk b w. unfold bind.
  specialize (Hc b w). destruct (c b w) as [[a|e] w']; cbn in *.
  - eapply frame_trans; [exact Hc | apply Hk].
  - exact Hc.
Qed.

Lemma contained_bind {A B} (c : M A) (k : A -> M B) :
  contained c -> (forall a, contained (k a)) -> contained (bind c k).
Proof.
  intros Hc Hk b w. unfold bind.
  destruct (Hc b w) as [Hf He]. destruct (c b w) as [[a|e] w']; cbn in *.
  - destruct (Hk a b w') as [Hf' He'].
    split; [eapply frame_trans; eassumption | exact He'].
  - split; [exact Hf|]. intros e0 E. injection E as <-. now apply He.
Qed.

Lemma contained_tryCatch {A} (body : M A) (handler : Error -> M A) :
  framed body -> (forall e, contained (handler e)) ->
  contained (tryCatch body handler).
Proof.
  intros Hb Hh b w. unfold tryCatch.
  specialize (Hb b w). destruct (body b w) as [[a|e] w']; cbn in *.
  - split; [exact Hb | discriminate].
  - destruct (Hh e b w') as [Hf' He'].
    split; [eapply frame_trans; eassumption | exact He'].
Qed.

Lemma contained_ret {A} (a : A) : contained (ret a).
Proof. intros b w; split; [apply frame_refl | discriminate]. Qed.

Lemma contained_getCtx : contained getCtx.
Proof. intros b w; split; [apply frame_refl | discriminate]. Qed.

Lemma contained_setCtx (c : option nat) : contained (setCtx c).
Proof. intros b w; split; [repeat split | discriminate]. Qed.

Lemma contained_stateOf (c : nat) : contained (stateOf c).
Proof. intros b w; split; [apply frame_refl | discriminate]. Qed.

Lemma contained_new : contained newAudioContext.
Proof.
  intros b w. unfold newAudioContext.
  destruct (construct b _); cbn; split;
    try (repeat split); try discriminate; congruence.
Qed.

Lemma framed_resume (c : nat) : framed (resumeContext c).
Proof.
  intros b w. unfold resumeContext. destruct (resume b _); repeat split.
Qed.

Lemma contained_initCtx : contained initCtx.
Proof.
  unfold initCtx.
  apply contained_bind; [apply contained_getCtx|]. intros c.
  apply contained_bind.
  - destruct c; [|apply contained_ret].
    apply contained_bind; [apply contained_stateOf | intros; apply contained_ret].
  - intros [|]; [|apply contained_ret].
    apply contained_bind; [apply contained_new | intros; apply contained_setCtx].
Qed.

Lemma framed_resume_then {A} (c : nat) (a : A) :
  framed (resumeContext c ;;; ret a).
Proof.
  apply framed_bind; [apply framed_resume|].
  intros _. apply contained_framed, contained_ret.
Qed.

Lemma contained_ensure : contained ensureContextReady.
Proof.
  unfold ensureContextReady.
  apply contained_bind; [apply contained_initCtx|]. intros _.
  apply contained_bind; [apply contained_getCtx|]. intros [a|];
    [|apply contained_ret].
  apply contained_bind; [apply contained_stateOf|]. intros s.
  apply contained_bind.
  - destruct (negb (is_running s)); [|apply contained_ret].
    apply contained_tryCatch; [apply framed_resume_then|]. intros _.
    apply contained_bind; [apply contained_setCtx|]. intros _.
    apply contained_bind; [apply contained_initCtx|]. intros _.
    apply contained_bind; [apply contained_getCtx|]. intros [a'|];
      [|apply contained_ret].
    apply contained_tryCatch; [apply framed_resume_then|].
    intros _. apply contained_ret.
  - intros [r|]; [apply contained_ret | apply contained_getCtx].
Qed.

(** *** Sound operations on a null context *)

Lemma plain_null (b : Browser) (w w2 : World) :
  ensureContextReady b w = (Returned None, w2) ->
  Plain.playTick b w = (Returned tt, w2)
  /\ Plain.playDing b w = (Returned tt, w2).
Proof.
  intros H. unfold Plain.playTick, Plain.playDing, bind. now rewrite H.
Qed.

Lemma fallback_null (b : Browser) (w w2 : World) :
  ensureContextReady b w = (Returned None, w2) ->
  fst (Fallback.playTick b w) = Returned tt
  /\ effects (snd (Fallback.playTick b w))
     = effects w2 ++ [ElementPlayed TickSound 0]
  /\ fst (Fallback.playDing b w) = Returned tt
  /\ effects (snd (Fallback.playDing b w))
     = effects w2 ++ [ElementPlayed DingSound 0].
Proof.
  intros H.
  unfold Fallback.playTick, Fallback.playDing, Fallback.playFallback, bind,
    tryCatch, elementPlay, ret.
  rewrite H. destruct (play b (plays w2)); repeat split.
Qed.

Lemma pooled_null (b : Browser) (w w2 : World) :
  ensureContextReady b w = (Returned None, w2) ->
  Pooled.indices_ok w2 ->
  fst (Pooled.playTick b w) = Returned tt
  /\ effects (snd (Pooled.playTick b w))
     = effects w2 ++ [ElementPlayed TickSound (tickIdx w2)]
  /\ Pooled.indices_ok (snd (Pooled.playTick b w))
  /\ fst (Pooled.playDing b w) = Returned tt
  /\ effects (snd (Pooled.playDing b w))
     = effects w2 ++ [ElementPlayed DingSound (dingIdx w2)]
  /\ Pooled.indices_ok (snd (Pooled.playDing b w)).
Proof.
  intros H [Ht Hd].
  pose proof (Nat.mod_upper_bound (tickIdx w2 + 1) Pooled.POOL_SIZE
                ltac:(discriminate)) as Mt.
  pose proof (Nat.mod_upper_bound (dingIdx w2 + 1) Pooled.POOL_SIZE
                ltac:(discriminate)) as Md.
  unfold Pooled.playTick, Pooled.playDing, Pooled.playFromPool, Pooled.getIdx,
    Pooled.setIdx, Pooled.indices_ok, isMobile, bind, tryCatch, elementPlay,
    ret, throw.
  rewrite H. cbn -[Nat.modulo Nat.ltb].
  apply Nat.ltb_lt in Ht, Hd. rewrite Ht, Hd. apply Nat.ltb_lt in Ht, Hd.
  cbn -[Nat.modulo].
  destruct (play b (plays w2)); cbn -[Nat.modulo]; repeat split; assumption.
Qed.

(** C7, as stated, fails when the constructor throws.  In the [catch]
    block of [ensureContextReady] the call of [initCtx] stands outside any
    [try].  On a platform whose first [resume()] is rejected and whose
    constructor then throws, the service makes no second [resume()], and the
    constructor's exception leaves [ensureContextReady] and, through it,
    [playTick] and [playDing] of every version of the service, none of which
    plays its fallback element; [audioCtx] is left null. *)
Lemma constructor_failure_in_retry_is_raised :
  fst (ensureContextReady constructor_throws_on_retry fresh)
  = Thrown ConstructorThrew
  /\ effects (snd (ensureContextReady constructor_throws_on_retry fresh))
     = [Constructed 0; ResumeCalled 0]
  /\ audioCtx (snd (ensureContextReady constructor_throws_on_retry fresh))
     = None
  /\ Plain.playTick constructor_throws_on_retry fresh
     = constructor_exception_raised
  /\ Plain.playDing constructor_throws_on_retry fresh
     = constructor_exception_raised
  /\ Fallback.playTick constructor_throws_on_retry fresh
     = constructor_exception_raised
  /\ Fallback.playDing constructor_throws_on_retry fresh
     = constructor_exception_raised
  /\ Pooled.playTick constructor_throws_on_retry fresh
     = constructor_exception_raised
  /\ Pooled.playDing constructor_throws_on_retry fresh
     = constructor_exception_raised.
Proof. repeat split. Qed.

(** C7, amended.  (1) When the first [resume()] of [ensureContextReady] is
    rejected and the constructor then yields a new context, the service
    calls [resume()] once more, on the new context, and only once: the calls
    on the platform are the rejected resume, the construction and the
    retried resume, and [audioCtx] is left holding the new context.  The
    result is the new context if the retried resume is fulfilled and null if
    it is rejected.  (2) No rejection of a [resume()] ever leaves
    [ensureContextReady] as an exception: the only exception that does is
    the one of the constructor.  (3) Whenever [ensureContextReady] returns
    null, [playTick] and [playDing] return without an exception: in
    services/audioService.ts doing nothing more, in the versions with a
    fallback element or a pool playing that element, whether or not its
    [play()] is rejected. *)
Theorem resume_failure_retried_once_then_null :
  forall (b : Browser) (w : World),
    (forall w1 a s',
        initCtx b w = (Returned tt, w1) ->
        audioCtx w1 = Some a ->
        is_running (nth a (contexts w1) closed) = false ->
        resume b (resumes w1) = false ->
        construct b (length (contexts w1)) = Some s' ->
        let a' := length (contexts w1) in
        let r := ensureContextReady b w in
        fst r = Returned (if resume b (S (resumes w1)) then Some a' else None)
        /\ effects (snd r)
           = effects w1 ++ [ResumeCalled a; Constructed a'; ResumeCalled a']
        /\ resumes (snd r) = 2 + resumes w1
        /\ audioCtx (snd r) = Some a')
    /\ (forall e, fst (ensureContextReady b w) = Thrown e ->
                  e = ConstructorThrew)
    /\ (fst (ensureContextReady b w) = Returned None ->
        let w2 := snd (ensureContextReady b w) in
        Plain.playTick b w = (Returned tt, w2)
        /\ Plain.playDing b w = (Returned tt, w2)
        /\ fst (Fallback.playTick b w) = Returned tt
        /\ effects (snd (Fallback.playTick b w))
           = effects w2 ++ [ElementPlayed TickSound 0]
        /\ fst (Fallback.playDing b w) = Returned tt
        /\ effects (snd (Fallback.playDing b w))
           = effects w2 ++ [ElementPlayed DingSound 0]
        /\ (Pooled.indices_ok w ->
            fst (Pooled.playTick b w) = Returned tt
            /\ effects (snd (Pooled.playTick b w))
               = effects w2 ++ [ElementPlayed TickSound (tickIdx w)]
            /\ Pooled.indices_ok (snd (Pooled.playTick b w))
            /\ fst (Pooled.playDing b w) = Returned tt
            /\ effects (snd (Pooled.playDing b w))
               = effects w2 ++ [ElementPlayed DingSound (dingIdx w)]
            /\ Pooled.indices_ok (snd (Pooled.playDing b w)))).
Proof.
  intros b w. split; [|split].
  - intros w1 a s' H1 H2 H3 H4 H5. cbn zeta.
    rewrite (ensure_retry b w w1 a s' H1 H2 H3 H4 H5).
    repeat split.
  - apply contained_ensure.
  - intros Hnull. cbn zeta.
    destruct (contained_ensure b w) as [(Ft & Fd & _) _].
    destruct (ensureContextReady b w) as [o w2] eqn:E. cbn in Hnull, Ft, Fd.
    subst o. cbn [snd].
    destruct (plain_null b w w2 E) as [P1 P2].
    destruct (fallback_null b w w2 E) as (F1 & F2 & F3 & F4).
    repeat (split; [assumption|]).
    intros [Ht Hd]. rewrite <- Ft, <- Fd.
    apply (pooled_null b w w2 E). split; congruence.
Qed.

(** A platform on which contexts start suspended and nothing is ever
    resumed or played, as on a phone before the first gesture. *)
Lemma resume_failure_retried_once_then_null_witness :
  let b := mkBrowser (fun _ => Some suspended) (fun _ => false)
                     (fun _ => false) true in
  fst (ensureContextReady b fresh) = Returned None
  /\ effects (snd (ensureContextReady b fresh))
     = [Constructed 0] ++ [ResumeCalled 0; Constructed 1; ResumeCalled 1]
  /\ fst (Pooled.playTick b fresh) = Returned tt
  /\ effects (snd (Pooled.playTick b fresh))
     = [Constructed 0; ResumeCalled 0; Constructed 1; ResumeCalled 1;
        ElementPlayed TickSound 0].
Proof.
  intros b.
  destruct (resume_failure_retried_once_then_null b fresh) as (H1 & _ & H3).
  destruct (H1 (snd (initCtx b fresh)) 0 suspended
               eq_refl eq_refl eq_refl eq_refl eq_refl) as (Hn & He & _).
  destruct (H3 Hn) as (_ & _ & _ & _ & _ & _ & Hp).
  destruct (Hp ltac:(split; unfold Pooled.POOL_SIZE; cbn; lia))
    as (Hr & Hf & _).
  split; [exact Hn | split; [exact He | split; [exact Hr | exact Hf]]].
Defined.

End AudioSpec.

(** ** More properties of the worker *)

Module SessionSpec.
Import Worker Session.

(** *** The shape of what a tick posts *)

(** X1.  A tick posts one closing message, TICK, INTERVAL_END or COMPLETED, which
    comes last and carries the state the tick leaves.  At most one message
    precedes it: a COUNTDOWN, and then the closing message is a plain TICK
    and the COUNTDOWN shows the same state one second of the interval
    earlier. *)
Theorem tick_posts_one_closing_message :
  forall w : World,
    exists (pre : list Posted) (closing : Posted),
      tick_events w = pre ++ [closing]
      /\ snapshot closing = state (tick w)
      /\ type closing <> COUNTDOWN
      /\ (pre = []
          \/ (type closing = TICK
              /\ pre = [mkPosted COUNTDOWN
                          (set_currentIntervalTime
                             (currentIntervalTime (state (tick w)) + 1)
                             (state (tick w)))])).
Proof.
  intros w. rewrite WorkerSpec.tick_events_eq, WorkerSpec.tick_state_eq.
  destruct (state w) as [c t n L D].
  unfold tick_posts, tick_state; cbn.
  destruct (t - 1 <=? 0).
  - exists [], (mkPosted COMPLETED (mkState 0 0 n L D)).
    repeat split; [discriminate | now left].
  - destruct (0 <? c) eqn:E0; cbn.
    + apply Z.ltb_lt in E0.
      assert ((c - 1 <? 0) = false) as -> by (apply Z.ltb_ge; lia).
      destruct (c <=? 3); cbn.
      * exists [mkPosted COUNTDOWN (mkState c (t - 1) n L D)],
               (mkPosted TICK (mkState (c - 1) (t - 1) n L D)).
        split; [reflexivity|]. cbn.
        repeat split; [discriminate|]. right. split; [reflexivity|].
        unfold set_currentIntervalTime; cbn.
        do 3 f_equal. lia.
      * exists [], (mkPosted TICK (mkState (c - 1) (t - 1) n L D)).
        split; [reflexivity|]. cbn.
        repeat split; [discriminate | now left].
    + exists []. eexists. split; [reflexivity|]. cbn.
      repeat split; [destruct (c - 1 <? 0); discriminate | now left].
Qed.

(** *** How long a session lasts *)

Lemma ticks_before_the_end (m : nat) :
  forall w : World,
    Z.of_nat m < totalTimeRemaining (state w) ->
    totalTimeRemaining (state (ticks m w))
    = totalTimeRemaining (state w) - Z.of_nat m
    /\ timerId (ticks m w) = timerId w
    /\ timers (ticks m w) = timers w.
Proof.
  induction m as [|m IH]; intros w Hm.
  - cbn. repeat split; lia.
  - destruct (IH w ltac:(lia)) as (Ht & Hid & Htm).
    rewrite WorkerSpec.ticks_succ_r.
    destruct (WorkerSpec.tick_unfold (ticks m w)) as (Hs & _ & _ & _ & Hgo).
    destruct Hgo as [Hid' Htm']; [apply Z.leb_gt; lia|].
    rewrite Hid', Htm', Hs. unfold tick_state.
    assert ((totalTimeRemaining (state (ticks m w)) - 1 <=? 0) = false) as ->
        by (apply Z.leb_gt; lia).
    destruct (_ <? 0); cbn; repeat split; try assumption; lia.
Qed.

(** X2.  A session of [D] minutes, [D >= 1] and [60 * D] at most 2^53 - 1
    so that the countdown is exact, lasts exactly [60 * D] ticks whatever the
    interval length: none of the first [60 * D - 1] ticks posts COMPLETED or
    touches the timer, and tick number [60 * D] posts COMPLETED alone, with
    both times at 0, and stops the timer. *)
Theorem session_lasts_sixty_ticks_per_minute :
  forall (p : Payload) (w : World),
    1 <= p_totalDuration p ->
    p_totalDuration p * 60 <= Double.MAX_SAFE_INTEGER ->
    one_loop w ->
    let w0 := onmessage START (begin p w) in
    let n := Z.to_nat (p_totalDuration p * 60) in
    (forall m : nat,
        (m < n - 1)%nat ->
        posts COMPLETED (tick_events (ticks m w0)) = false
        /\ timers (ticks (S m) w0) = timers w0)
    /\ (exists h, timers w0 = [h])
    /\ (exists s,
          tick_events (ticks (n - 1) w0) = [mkPosted COMPLETED s]
          /\ totalTimeRemaining s = 0
          /\ currentIntervalTime s = 0)
    /\ timers (ticks n w0) = []
    /\ timerId (ticks n w0) = None.
Proof.
  intros [L D] w HD _ Hloop; cbn in HD; cbn zeta; cbn [p_totalDuration].
  set (w0 := onmessage START _).
  set (n := Z.to_nat _).
  assert (Ht0 : totalTimeRemaining (state w0) = D * 60).
  { subst w0. unfold begin.
    destruct w as [[c t k L0 D0] [h|] tms nh ob]; reflexivity. }
  assert (Hloop0 : one_loop w0).
  { subst w0. unfold begin.
    repeat apply WorkerSpec.onmessage_one_loop. exact Hloop. }
  assert (Hh : exists h, timers w0 = [h]).
  { subst w0. unfold begin.
    destruct w as [[c t k L0 D0] [h|] tms nh ob];
      unfold one_loop in Hloop; cbn in Hloop; subst tms; cbn; eauto. }
  assert (Hn : Z.of_nat n = D * 60) by (subst n; lia).
  assert (Hlast : forall m, (m < n)%nat ->
                    totalTimeRemaining (state (ticks m w0)) = D * 60 - Z.of_nat m
                    /\ timerId (ticks m w0) = timerId w0
                    /\ timers (ticks m w0) = timers w0).
  { intros m Hm. rewrite <- Ht0. apply ticks_before_the_end. lia. }
  split; [|split; [exact Hh | split; [|]]].
  - intros m Hm.
    destruct (Hlast m ltac:(lia)) as (Ht & _).
    destruct (Hlast (S m) ltac:(lia)) as (_ & _ & Htm).
    split; [|exact Htm].
    rewrite WorkerSpec.tick_events_eq. unfold tick_posts. rewrite Ht.
    assert ((D * 60 - Z.of_nat m - 1 <=? 0) = false) as ->
        by (apply Z.leb_gt; lia).
    destruct (_ && _); cbn; destruct (_ <? 0); reflexivity.
  - destruct (Hlast (n - 1)%nat ltac:(lia)) as (Ht & _).
    rewrite WorkerSpec.tick_events_eq. unfold tick_posts, tick_state. rewrite Ht.
    assert ((D * 60 - Z.of_nat (n - 1) - 1 <=? 0) = true) as ->
        by (apply Z.leb_le; lia).
    eexists; repeat split.
  - destruct (Hlast (n - 1)%nat ltac:(lia)) as (Ht & Hid & Htm).
    replace n with (S (n - 1)) by lia. rewrite WorkerSpec.ticks_succ_r.
    destruct (WorkerSpec.tick_unfold (ticks (n - 1) w0))
      as (_ & _ & _ & Hdone & _).
    destruct Hdone as [Hid' Htm']; [apply Z.leb_le; lia|].
    split; [|exact Hid'].
    rewrite Htm'. apply WorkerSpec.clear_own_timer.
    unfold one_loop. rewrite Htm, Hid. exact Hloop0.
Qed.

Lemma session_lasts_sixty_ticks_per_minute_witness :
  let w0 := onmessage START (begin (mkPayload 60 1) initial) in
  timers (ticks 60 w0) = [] /\ timerId (ticks 60 w0) = None.
Proof.
  apply (session_lasts_sixty_ticks_per_minute (mkPayload 60 1) initial).
  - cbn; lia.
  - unfold Double.MAX_SAFE_INTEGER; cbn; lia.
  - reflexivity.
Defined.

(** *** The countdown in closed form *)

Lemma begin_state (p : Payload) (w : World) :
  state (begin p w)
  = mkState (p_intervalLength p) (p_totalDuration p * 60) 0
            (p_intervalLength p) (p_totalDuration p).
Proof. destruct w as [[c t k L0 D0] tid tms nh ob]; reflexivity. Qed.

(** X3.  [m] ticks into a session of interval length [L >= 1] and [D] minutes,
    with [L] and [60 * D] at most 2^53 - 1 so that the arithmetic is exact,
    as long as it has not ended ([1 <= m < 60 * D]): the session has
    [60 * D - m] seconds left, the interval [L - 1 - (m - 1) mod L], and
    [(m - 1) / L] intervals are counted as completed: the first boundary is
    counted on tick [L + 1]. *)
Theorem state_after_ticks :
  forall (p : Payload) (w : World) (m : nat),
    1 <= p_intervalLength p <= Double.MAX_SAFE_INTEGER ->
    p_totalDuration p * 60 <= Double.MAX_SAFE_INTEGER ->
    (1 <= m)%nat ->
    Z.of_nat m < p_totalDuration p * 60 ->
    state (ticks m (begin p w))
    = mkState (p_intervalLength p - 1 - (Z.of_nat m - 1) mod p_intervalLength p)
              (p_totalDuration p * 60 - Z.of_nat m)
              ((Z.of_nat m - 1) / p_intervalLength p)
              (p_intervalLength p) (p_totalDuration p).
Proof.
  intros [L D] w m [HL _] _; cbn [p_intervalLength p_totalDuration] in *.
  induction m as [|m IH]; intros Hm1 Hm; [lia|].
  rewrite WorkerSpec.ticks_succ_r, WorkerSpec.tick_state_eq.
  replace (Z.of_nat (S m) - 1) with (Z.of_nat m) by lia.
  destruct m as [|m'].
  - cbn [ticks]. rewrite begin_state; cbn [p_intervalLength p_totalDuration].
    unfold tick_state; cbn.
    assert ((D * 60 - 1 <=? 0) = false) as -> by (apply Z.leb_gt; lia).
    assert ((L - 1 <? 0) = false) as -> by (apply Z.ltb_ge; lia).
    f_equal; lia.
  - rewrite IH by lia. remember (Z.of_nat (S m')) as k eqn:Ek.
    assert (Hk : 1 <= k) by lia.
    pose proof (Z.mod_pos_bound (k - 1) L ltac:(lia)) as Hr.
    pose proof (Z.div_mod (k - 1) L ltac:(lia)) as Hq.
    unfold tick_state; cbn.
    assert ((D * 60 - k - 1 <=? 0) = false) as -> by (apply Z.leb_gt; lia).
    destruct (L - 1 - (k - 1) mod L - 1 <? 0) eqn:E;
      [apply Z.ltb_lt in E | apply Z.ltb_ge in E].
    + assert (Hm0 : k mod L = 0)
        by (symmetry; apply (Z.mod_unique_pos _ _ ((k - 1) / L + 1)); lia).
      assert (Hd0 : k / L = (k - 1) / L + 1)
        by (symmetry; apply (Z.div_unique_pos _ _ _ 0); lia).
      rewrite Hm0, Hd0. f_equal; lia.
    + assert (Hm0 : k mod L = (k - 1) mod L + 1)
        by (symmetry; apply (Z.mod_unique_pos _ _ ((k - 1) / L)); lia).
      assert (Hd0 : k / L = (k - 1) / L)
        by (symmetry; apply (Z.div_unique_pos _ _ _ ((k - 1) mod L + 1)); lia).
      rewrite Hm0, Hd0. f_equal; lia.
Qed.

Lemma state_after_ticks_witness :
  state (ticks 61 (begin (mkPayload 60 20) initial))
  = mkState (60 - 1 - (61 - 1) mod 60) (20 * 60 - 61) ((61 - 1) / 60) 60 20.
Proof.
  apply (state_after_ticks (mkPayload 60 20) initial 61);
    unfold Double.MAX_SAFE_INTEGER; cbn; lia.
Defined.

(** *** After the end *)

(** X4.  Once the session's time is used up it stays used up until INIT_STATE or
    RESET: whatever CONFIGURE, START, PAUSE and timer firings follow,
    [totalTimeRemaining] stays 0 and every message posted meanwhile is a
    COMPLETED with both times at 0.  In particular START on a finished
    session makes the next tick post COMPLETED again. *)
Theorem finished_session_stays_finished :
  forall (ins : list Input) (w w' : World),
    totalTimeRemaining (state w) = 0 ->
    Forall keeps_countdown ins ->
    run ins w = Some w' ->
    totalTimeRemaining (state w') = 0
    /\ exists es, outbox w' = outbox w ++ es /\ all_completed es.
Proof.
  intros ins w w' H0 Hok Hrun.
  apply (WorkerSpec.run_preserves keeps_countdown
           (fun v => totalTimeRemaining (state v) = 0
                     /\ exists es, outbox v = outbox w ++ es /\ all_completed es))
    with (ins := ins) (w := w); try assumption.
  - intros i v v' Hi [Hv (es & Hes & Hall)] Hs.
    destruct (WorkerSpec.step_cases _ _ _ Hs) as [(r & -> & ->)|(h & _ & _ & ->)].
    + destruct r as [q|q| | |]; cbn in Hi; try contradiction;
        destruct v as [[c t k L D] [h|] tms nh ob]; cbn in *;
        (split; [assumption | exists es; split; assumption]).
    + destruct (WorkerSpec.tick_unfold v) as (Hst & Hob & _).
      rewrite Hst, Hob. unfold tick_state, tick_posts, tick_state.
      rewrite Hv. cbn. split; [reflexivity|].
      exists (es ++ [mkPosted COMPLETED
                       (mkState 0 0 (intervalsCompleted (state v))
                                (intervalLength (state v))
                                (totalDuration (state v)))]).
      split; [now rewrite Hes, app_assoc|].
      apply Forall_app; split; [exact Hall|].
      repeat constructor.
  - split; [exact H0|]. exists []. split; [now rewrite app_nil_r | constructor].
Qed.

Lemma finished_session_stays_finished_witness :
  let w := ticks 60 (onmessage START (begin (mkPayload 60 1) initial)) in
  let w' := tick (onmessage START w) in
  totalTimeRemaining (state w') = 0
  /\ exists es, outbox w' = outbox w ++ es /\ all_completed es.
Proof.
  apply (finished_session_stays_finished [Message START; Fire 2%positive]).
  - vm_compute; reflexivity.
  - repeat constructor.
  - vm_compute; reflexivity.
Defined.

(** *** RESET *)

(** X5.  In every state the worker reaches, RESET does what PAUSE followed by a
    fresh session with the configured settings does, and then posts one
    TICK: no timer is left, the times are the full interval and the full
    session, the counter is 0, and the TICK shows exactly that. *)
Theorem reset_is_pause_then_fresh_session :
  forall (ins : list Input) (w : World),
    run ins initial = Some w ->
    let w' := onmessage RESET w in
    w' = postMessage TICK (begin (config w) (onmessage PAUSE w))
    /\ timers w' = []
    /\ state w'
       = mkState (intervalLength (state w)) (totalDuration (state w) * 60) 0
                 (intervalLength (state w)) (totalDuration (state w))
    /\ outbox w' = outbox w ++ [mkPosted TICK (state w')].
Proof.
  intros ins w Hrun.
  assert (Hloop : one_loop w) by (eapply WorkerSpec.run_one_loop; eassumption).
  pose proof (WorkerSpec.clear_own_timer w Hloop) as Hc.
  destruct w as [[c t k L D] [h|] tms nh ob]; cbn in *.
  - rewrite Hc. repeat split.
  - unfold one_loop in Hloop; cbn in Hloop; subst tms. repeat split.
Qed.

Lemma reset_is_pause_then_fresh_session_witness :
  let w := tick (onmessage START (begin (mkPayload 60 20) initial)) in
  timers (onmessage RESET w) = []
  /\ state (onmessage RESET w) = mkState 60 (20 * 60) 0 60 20
  /\ outbox (onmessage RESET w)
     = outbox w ++ [mkPosted TICK (state (onmessage RESET w))].
Proof.
  apply (reset_is_pause_then_fresh_session
           [Message (INIT_STATE (mkPayload 60 20));
            Message (CONFIGURE (mkPayload 60 20));
            Message START; Fire 1%positive]).
  reflexivity.
Defined.

(** *** The interval counter *)

Lemma count_app (t : EventType) (l r : list Posted) :
  count t (l ++ r) = (count t l + count t r)%nat.
Proof. unfold count. now rewrite filter_app, length_app. Qed.

Lemma tick_counts_interval_end (s : State) :
  intervalsCompleted (tick_state s)
  = intervalsCompleted s + Z.of_nat (count INTERVAL_END (tick_posts s)).
Proof.
  unfold tick_state, tick_posts, tick_state, count.
  destruct (_ <=? 0); cbn; [lia|].
  destruct (_ && _); destruct (_ <? 0); cbn; lia.
Qed.

(** X6.  Over any number of ticks in a row, [intervalsCompleted] grows by the
    number of INTERVAL_END messages posted by them, whether or not the
    session ends on the way. *)
Theorem counter_counts_interval_ends :
  forall (m : nat) (w : World),
    exists es : list Posted,
      outbox (ticks m w) = outbox w ++ es
      /\ intervalsCompleted (state (ticks m w))
         = intervalsCompleted (state w) + Z.of_nat (count INTERVAL_END es).
Proof.
  induction m as [|m IH]; intros w.
  - exists []. cbn. split; [now rewrite app_nil_r | lia].
  - destruct (IH w) as (es & Hob & Hic).
    rewrite WorkerSpec.ticks_succ_r.
    destruct (WorkerSpec.tick_unfold (ticks m w)) as (Hst & Hob' & _).
    exists (es ++ tick_posts (state (ticks m w))).
    split; [now rewrite Hob', Hob, app_assoc|].
    rewrite Hst, tick_counts_interval_end, Hic, count_app. lia.
Qed.

Lemma step_counter_nonneg (i : Input) (v v' : World) :
  0 <= intervalsCompleted (state v) /\ counters_nonneg (outbox v) ->
  step i v = Some v' ->
  0 <= intervalsCompleted (state v') /\ counters_nonneg (outbox v').
Proof.
  intros [Hv Hall] Hs. unfold counters_nonneg in *.
  destruct (WorkerSpec.step_cases _ _ _ Hs) as [(r & -> & ->)|(h & _ & _ & ->)].
  - destruct v as [[c t k L D] [h|] tms nh ob], r as [q|q| | |]; cbn in *;
      (split; [lia|]); try assumption;
      apply Forall_app; split; try assumption; repeat constructor; cbn; lia.
  - destruct (WorkerSpec.tick_unfold v) as (Hst & Hob & _).
    rewrite Hst, Hob. split.
    + rewrite tick_counts_interval_end. lia.
    + apply Forall_app; split; [exact Hall|].
      unfold tick_posts, tick_state.
      destruct (_ <=? 0); [repeat constructor; cbn; lia|].
      apply Forall_app; split.
      * destruct (_ && _); repeat constructor; cbn; lia.
      * destruct (_ <? 0); repeat constructor; cbn; lia.
Qed.

Lemma posted_counters_nonneg (ins : list Input) (w : World) :
  run ins initial = Some w -> counters_nonneg (outbox w).
Proof.
  intros Hrun.
  apply (WorkerSpec.run_preserves (fun _ => True)
           (fun v => 0 <= intervalsCompleted (state v)
                     /\ counters_nonneg (outbox v))
           (fun i v v' _ => step_counter_nonneg i v v') ins initial);
    [now apply Forall_forall | split; [cbn; lia | constructor] | exact Hrun].
Qed.

(** X7.  In every state the worker reaches, whatever the payloads, the counter
    is not negative, in [state] and in every message posted. *)
Theorem counter_never_negative :
  forall (ins : list Input) (w : World),
    run ins initial = Some w ->
    0 <= intervalsCompleted (state w) /\ counters_nonneg (outbox w).
Proof.
  intros ins w Hrun.
  assert (Hstart : 0 <= intervalsCompleted (state initial)
                   /\ counters_nonneg (outbox initial))
    by (split; [cbn; lia | constructor]).
  revert Hstart Hrun. generalize initial as v.
  induction ins as [|i ins IH]; intros v Hv Hrun; cbn in Hrun.
  - now injection Hrun as <-.
  - destruct (step i v) as [v1|] eqn:Hs; [|discriminate].
    apply (IH v1); [eapply step_counter_nonneg; eassumption | exact Hrun].
Qed.

Lemma counter_never_negative_witness :
  0 <= intervalsCompleted
         (state (onmessage RESET
                   (onmessage (INIT_STATE (mkPayload (-5) (-1))) initial))).
Proof.
  apply (counter_never_negative
           [Message (INIT_STATE (mkPayload (-5) (-1))); Message RESET]).
  reflexivity.
Defined.

End SessionSpec.

(** ** Properties of the page's message handler *)

Module PageSpec.
Import App Page.

Lemma receive_app (es1 es2 : list Worker.Posted) (st : TimerState) :
  receive (es1 ++ es2) st
  = (fst (receive es2 (fst (receive es1 st))),
     snd (receive es1 st) ++ snd (receive es2 (fst (receive es1 st)))).
Proof.
  revert st; induction es1 as [|e es1 IH]; intros st; cbn [receive app].
  - cbn. now destruct (receive es2 st).
  - destruct (workerOnMessage e st) as [st1 c1].
    rewrite (IH st1).
    destruct (receive es1 st1) as [st2 c2]; cbn.
    destruct (receive es2 st2) as [st3 c3]; cbn.
    now rewrite app_assoc.
Qed.

(** X8.  After the page has handled the messages of a tick, its three counters
    are those of the worker after the tick, and its status is COMPLETED if
    the tick ended the session and what it was before otherwise. *)
Theorem page_follows_the_worker :
  forall (w : Worker.World) (prev : TimerState),
    let st := fst (receive (Worker.tick_events w) prev) in
    let s' := Worker.state (Worker.tick w) in
    currentIntervalTime st = Worker.currentIntervalTime s'
    /\ totalTimeRemaining st = Worker.totalTimeRemaining s'
    /\ intervalsCompleted st = Worker.intervalsCompleted s'
    /\ status st
       = (if Worker.totalTimeRemaining (Worker.state w) - 1 <=? 0
          then COMPLETED else status prev).
Proof.
  intros w prev. cbn zeta.
  rewrite WorkerSpec.tick_events_eq, WorkerSpec.tick_state_eq.
  unfold Worker.tick_posts.
  destruct (_ <=? 0) eqn:E1; [cbn; repeat split|].
  destruct (_ && _); cbn; destruct (_ <? 0); cbn; repeat split.
Qed.

(** X9.  The sounds of a tick.  The tick that ends the session triggers the
    alert, releases the wake lock and disables the background mode.  Any
    other tick triggers the tick sound if the interval remaining was in
    [1,3], the alert if the interval rolled over, and nothing otherwise:
    never two sounds for one tick. *)
Theorem one_sound_per_tick :
  forall (w : Worker.World) (prev : TimerState),
    let s := Worker.state w in
    snd (receive (Worker.tick_events w) prev)
    = if Worker.totalTimeRemaining s - 1 <=? 0
      then [TriggerAlert; ReleaseWakeLock; DisableBackgroundMode]
      else if (1 <=? Worker.currentIntervalTime s)
              && (Worker.currentIntervalTime s <=? 3)
      then [PlayTick]
      else if Worker.currentIntervalTime s <=? 0
      then [TriggerAlert]
      else [].
Proof.
  intros w prev. cbn zeta.
  rewrite WorkerSpec.tick_events_eq. unfold Worker.tick_posts.
  destruct (_ <=? 0) eqn:E1; [reflexivity|].
  destruct (Z.ltb_spec 0 (Worker.currentIntervalTime (Worker.state w)));
    destruct (Z.leb_spec 1 (Worker.currentIntervalTime (Worker.state w)));
    try lia;
    destruct (Z.leb_spec (Worker.currentIntervalTime (Worker.state w)) 3);
    destruct (Z.ltb_spec (Worker.currentIntervalTime (Worker.state w) - 1) 0);
    destruct (Z.leb_spec (Worker.currentIntervalTime (Worker.state w)) 0);
    try lia; reflexivity.
Qed.

(** *** The theme *)

Lemma receive_counter (es : list Worker.Posted) :
  forall prev : TimerState,
    0 <= intervalsCompleted prev ->
    Session.counters_nonneg es ->
    0 <= intervalsCompleted (fst (receive es prev)).
Proof.
  induction es as [|e es IH]; intros prev Hprev Hes; [exact Hprev|].
  inversion Hes as [|? ? He Hes']; subst.
  cbn [receive]. destruct (workerOnMessage e prev) as [st1 c1] eqn:E1.
  specialize (IH st1).
  destruct (receive es st1) as [st2 c2]; cbn in *.
  apply IH; [|exact Hes'].
  unfold workerOnMessage in E1. injection E1 as <- _. exact He.
Qed.

Lemma theme_of_counter (st : TimerState) :
  0 <= intervalsCompleted st ->
  exists k,
    currentThemeKey st = Some k
    /\ nth_error THEME_KEYS (Z.to_nat (intervalsCompleted st mod 4)) = Some k.
Proof.
  intros H. unfold currentThemeKey, at_index.
  change (Z.of_nat (length THEME_KEYS)) with 4.
  rewrite Z.rem_mod_nonneg by lia.
  pose proof (Z.mod_pos_bound (intervalsCompleted st) 4 ltac:(lia)) as Hb.
  destruct (Z.ltb_spec (intervalsCompleted st mod 4) 0); [lia|].
  destruct (nth_error THEME_KEYS (Z.to_nat (intervalsCompleted st mod 4)))
    as [k|] eqn:E; [eauto|].
  apply nth_error_None in E. cbn in E. lia.
Qed.

(** X10.  Whatever the worker has been sent, after each message the page has
    handled its theme is defined: the key looked up in [THEME_KEYS] is number
    [intervalsCompleted mod 4] of the four, so the themes rotate with the
    intervals and the lookup never yields [undefined]. *)
Theorem theme_always_defined :
  forall (ins : list Worker.Input) (w : Worker.World)
         (prev : TimerState) (n : nat),
    Worker.run ins Worker.initial = Some w ->
    0 <= intervalsCompleted prev ->
    let st := fst (receive (firstn n (Worker.outbox w)) prev) in
    exists k : ThemeName,
      currentThemeKey st = Some k
      /\ nth_error THEME_KEYS (Z.to_nat (intervalsCompleted st mod 4)) = Some k.
Proof.
  intros ins w prev n Hrun Hprev. cbn zeta.
  apply theme_of_counter, receive_counter; [exact Hprev|].
  pose proof (SessionSpec.posted_counters_nonneg ins w Hrun) as Hall.
  unfold Session.counters_nonneg in *.
  rewrite <- (firstn_skipn n (Worker.outbox w)) in Hall.
  now apply Forall_app in Hall.
Qed.

Lemma theme_always_defined_witness :
  let w := Worker.ticks 61 (Worker.onmessage Worker.START
                              (Session.begin (Worker.mkPayload 60 20)
                                 Worker.initial)) in
  exists k : ThemeName,
    currentThemeKey (fst (receive (firstn 100 (Worker.outbox w)) initialState))
    = Some k
    /\ nth_error THEME_KEYS
         (Z.to_nat (intervalsCompleted
                      (fst (receive (firstn 100 (Worker.outbox w))
                              initialState)) mod 4))
       = Some k.
Proof.
  apply (theme_always_defined
           (Worker.Message (Worker.INIT_STATE (Worker.mkPayload 60 20))
              :: Worker.Message (Worker.CONFIGURE (Worker.mkPayload 60 20))
              :: Worker.Message Worker.START
              :: repeat (Worker.Fire 1%positive) 61)).
  - vm_compute; reflexivity.
  - cbn; lia.
Defined.

End PageSpec.

(** ** More properties of the audio service *)

Module AudioMoreSpec.
Import Audio AudioMore.
Local Open Scope nat_scope.

Ltac crack :=
  repeat (cbn -[Nat.ltb Nat.modulo] in *;
          match goal with
          | H : (?i <? ?n) = true |- context [?i <? ?n] => rewrite H
          | |- context [match ?x with _ => _ end] =>
              is_var x;
              match type of x with
              | option _ => destruct x
              | bool => destruct x
              end
          | |- context [construct ?b ?n] => destruct (construct b n) eqn:?
          | |- context [resume ?b ?n] => destruct (resume b n) eqn:?
          | |- context [play ?b ?n] => destruct (play b n) eqn:?
          | |- context [is_closed ?s] => destruct (is_closed s) eqn:?
          | |- context [is_running ?s] => destruct (is_running s) eqn:?
          end);
  cbn -[Nat.ltb Nat.modulo] in *.

Lemma nth_assign_same {A} (l : list A) (n : nat) (v d : A) :
  n < length l -> nth n (assign n v l) d = v.
Proof.
  revert n; induction l as [|x l IH]; intros [|n] H; cbn in *; try lia.
  - reflexivity.
  - apply IH; lia.
Qed.

Lemma length_assign {A} (l : list A) (n : nat) (v : A) :
  length (assign n v l) = length l.
Proof.
  revert n; induction l as [|x l IH]; intros [|n]; cbn; try reflexivity.
  now rewrite IH.
Qed.

Lemma is_running_eq (s : ContextState) : is_running s = true -> s = running.
Proof. destruct s; (reflexivity || discriminate). Qed.

(** An invocation that is woken twice before anything else happens does
    what [ensureContextReady] run from start to end does. *)
Lemma alone_is_ensureContextReady (b : Browser) (w : World) :
  let (i1, w1) := Overlap.invoke b w in
  let (i2, w2) := Overlap.wake b i1 w1 in
  Overlap.wake b i2 w2
  = (Overlap.Finished (fst (ensureContextReady b w)),
     snd (ensureContextReady b w)).
Proof.
  destruct w as [a ti di cs r p es].
  unfold Overlap.invoke, Overlap.wake, Overlap.settle, Overlap.callResume,
    ensureContextReady, initCtx, bind, tryCatch, resumeContext, setCtx,
    getCtx, stateOf, ret, newAudioContext.
  crack; reflexivity.
Qed.

(** Two invocations that overlap.  Both await the [resume()] of the first
    context, both promises are rejected, each invocation puts a new context
    into [audioCtx] and awaits its [resume()].  When the promise of the
    first invocation is fulfilled, [audioCtx] holds the context of the
    second, and that one, still suspended, is what the first invocation
    returns. *)
Lemma overlapped_invocation_returns_suspended_context :
  exists w : World,
    Overlap.acts Overlap.third_resume_fulfilled
      [Overlap.Invoke; Overlap.Invoke;
       Overlap.Wake 0; Overlap.Wake 1; Overlap.Wake 0] (fresh, [])
    = (w, [Overlap.Finished (Returned (Some 2)); Overlap.AtRetryAwait 2 3])
    /\ audioCtx w = Some 2
    /\ contexts w = [suspended; running; suspended]
    /\ nth 2 (contexts w) closed = suspended.
Proof. eexists; split; [vm_compute; reflexivity|]. repeat split. Qed.

(** X11.  An invocation of [ensureContextReady] that runs from its call to
    its end with no other invocation started or woken in between, whatever
    invocations are pending meanwhile: what it returns other than null is
    the context the service holds in [audioCtx], and that context is
    running.  ([overlapped_invocation_returns_suspended_context]: not so
    when invocations overlap.) *)
Theorem ready_context_is_running :
  forall (b : Browser) (w w' : World) (others : list Overlap.Invocation)
         (c : nat),
    ctx_valid w ->
    Overlap.acts b
      [Overlap.Invoke; Overlap.Wake (length others);
       Overlap.Wake (length others)] (w, others)
    = (w', others ++ [Overlap.Finished (Returned (Some c))]) ->
    audioCtx w' = Some c
    /\ nth c (contexts w') closed = running
    /\ ctx_valid w'.
Proof.
  intros b w w' others c Hv.
  assert (Hnth : forall i : Overlap.Invocation,
             nth_error (others ++ [i]) (length others) = Some i).
  { intros i. rewrite nth_error_app2, Nat.sub_diag by lia. reflexivity. }
  assert (Hset : forall i j : Overlap.Invocation,
             assign (length others) j (others ++ [i]) = others ++ [j]).
  { intros i j. induction others as [|o os IH]; cbn; [reflexivity|].
    now rewrite IH. }
  unfold Overlap.acts; cbn [fold_left Overlap.act fst snd].
  pose proof (alone_is_ensureContextReady b w) as Halone.
  destruct (Overlap.invoke b w) as [i1 w1].
  cbn [fst snd]. rewrite Hnth.
  destruct (Overlap.wake b i1 w1) as [i2 w2].
  cbn [fst snd]. rewrite Hset, Hnth.
  rewrite Halone. cbn [fst snd]. rewrite Hset.
  intros H. injection H as Hw Hr.
  apply app_inv_head in Hr. injection Hr as Hr.
  subst w'. revert Hr. clear Halone Hnth Hset.
  destruct w as [a ti di cs r p es]. unfold ctx_valid in *. cbn in Hv.
  unfold ensureContextReady, initCtx, bind, tryCatch, resumeContext, setCtx,
    getCtx, stateOf, ret, newAudioContext.
  crack; intros H; try discriminate; injection H as <-; cbn.
  all: rewrite ?length_assign, ?length_app; cbn.
  all: repeat split; try lia.
  all: try (apply nth_assign_same; rewrite ?length_app; cbn; lia).
  all: try (apply is_running_eq; assumption).
Qed.

Lemma ready_context_is_running_witness :
  let b := mkBrowser (fun _ => Some suspended) (fun n => Nat.eqb n 1)
                     (fun _ => true) false in
  let w' := fst (Overlap.acts b [Overlap.Invoke; Overlap.Wake 0; Overlap.Wake 0]
                   (fresh, [])) in
  audioCtx w' = Some 1
  /\ nth 1 (contexts w') closed = running.
Proof.
  intros b w'.
  destruct (ready_context_is_running b fresh w' [] 1 I eq_refl)
    as (H1 & H2 & _).
  split; [exact H1 | exact H2].
Defined.



(** X13.  One call of [ensureContextReady] calls [resume()] at most twice and the
    constructor at most twice, whatever the platform answers, and plays
    nothing. *)
Theorem ready_calls_are_bounded :
  forall (b : Browser) (w : World),
    let es := new_effects w (snd (ensureContextReady b w)) in
    length (filter is_resume es) <= 2
    /\ length (filter is_construction es) <= 2
    /\ filter is_sound es = [].
Proof.
  intros b [a ti di cs r p es]. cbn zeta.
  unfold ensureContextReady, initCtx, bind, tryCatch, resumeContext, setCtx,
    getCtx, stateOf, ret, newAudioContext.
  unfold new_effects. crack.
  all: rewrite <- ?app_assoc.
  all: rewrite ?WorkerSpec.skipn_length_app.
  all: rewrite ?skipn_all.
  all: cbn; repeat split; lia.
Qed.

(** *** The pooled service: which sounds a call makes *)

Ltac run_pooled :=
  unfold Pooled.playTick, Pooled.playDing, Pooled.playFromPool, Pooled.getIdx,
    Pooled.setIdx, isMobile, synthesise, elementPlay, throw,
    ensureContextReady, initCtx, bind, tryCatch, resumeContext, setCtx,
    getCtx, stateOf, ret, newAudioContext.

(** X14.  With its pool indices in range, a call of [playTick] or [playDing] of
    the pooled service that gets [ctx] from [ensureContextReady] returns
    normally and makes these sounds, in this order: the next element of its
    pool if [ctx] is null or the device is a mobile one, then the
    synthesised tone if [ctx] is a context.  So it always attempts at least
    one sound, on a desktop with a ready context exactly the synthesised
    one. *)
Theorem pooled_sounds :
  forall (b : Browser) (w w1 : World) (ctx : option nat),
    Pooled.indices_ok w ->
    ensureContextReady b w = (Returned ctx, w1) ->
    let element := match ctx with Some _ => IS_MOBILE b | None => true end in
    fst (Pooled.playTick b w) = Returned tt
    /\ filter is_sound (new_effects w (snd (Pooled.playTick b w)))
       = (if element then [ElementPlayed TickSound (tickIdx w)] else [])
         ++ (match ctx with
             | Some c => [Synthesised TickSound c]
             | None => []
             end)
    /\ fst (Pooled.playDing b w) = Returned tt
    /\ filter is_sound (new_effects w (snd (Pooled.playDing b w)))
       = (if element then [ElementPlayed DingSound (dingIdx w)] else [])
         ++ (match ctx with
             | Some c => [Synthesised DingSound c]
             | None => []
             end).
Proof.
  intros b [a ti di cs r p es] w1 ctx [Ht Hd]. cbn in Ht, Hd.
  apply Nat.ltb_lt in Ht, Hd. revert Ht Hd.
  unfold new_effects. run_pooled.
  destruct (IS_MOBILE b); intros Ht Hd.
  all: crack; intros H; try discriminate; inversion H; subst; clear H.
  all: cbn; rewrite <- ?app_assoc.
  all: rewrite ?WorkerSpec.skipn_length_app.
  all: repeat split; reflexivity.
Qed.

Lemma pooled_sounds_witness :
  let b := mkBrowser (fun _ => Some running) (fun _ => true)
                     (fun _ => true) true in
  filter is_sound (new_effects fresh (snd (Pooled.playTick b fresh)))
  = [ElementPlayed TickSound 0] ++ [Synthesised TickSound 0].
Proof.
  intros b.
  destruct (pooled_sounds b fresh (snd (ensureContextReady b fresh)) (Some 0))
    as (_ & H & _).
  - split; unfold Pooled.POOL_SIZE; cbn; lia.
  - reflexivity.
  - exact H.
Defined.

(** *** The pooled service: the pools rotate *)

Lemma pooled_call_step (b : Browser) (w : World) (c : SoundCall) :
  Pooled.indices_ok w ->
  let r := pooledCall c b w in
  exists es,
    effects (snd r) = effects w ++ es
    /\ (fst r = Returned tt \/ fst r = Thrown ConstructorThrew)
    /\ Pooled.indices_ok (snd r)
    /\ tickIdx (snd r) = (tickIdx w + played TickSound es) mod Pooled.POOL_SIZE
    /\ dingIdx (snd r) = (dingIdx w + played DingSound es) mod Pooled.POOL_SIZE
    /\ within_pools es.
Proof.
  destruct w as [a ti di cs r p es]. intros [Ht Hd]. cbn in Ht, Hd.
  pose proof (Nat.mod_upper_bound (ti + 1) Pooled.POOL_SIZE ltac:(discriminate))
    as Mt.
  pose proof (Nat.mod_upper_bound (di + 1) Pooled.POOL_SIZE ltac:(discriminate))
    as Md.
  pose proof (Nat.mod_small ti Pooled.POOL_SIZE Ht) as St.
  pose proof (Nat.mod_small di Pooled.POOL_SIZE Hd) as Sd.
  assert (Ht' := proj2 (Nat.ltb_lt _ _) Ht).
  assert (Hd' := proj2 (Nat.ltb_lt _ _) Hd).
  cbn zeta. unfold Pooled.indices_ok, within_pools, played.
  destruct c; unfold pooledCall; run_pooled.
  all: destruct (IS_MOBILE b).
  all: crack.
  all: eexists; split;
    [ rewrite <- ?app_assoc;
      first [ reflexivity | symmetry; apply app_nil_r ] | ].
  all: cbn -[Nat.modulo]; rewrite ?Nat.add_0_r, ?St, ?Sd.
  all: repeat split; auto.
  all: repeat (first [ assumption | exact I | apply Forall_cons
                     | apply Forall_nil ]).
Qed.

(** X15.  Whatever calls of [playTick] and [playDing] the page makes on a
    pooled service whose pool indices are in range, as those of a fresh one
    are, and whatever the platform answers, no call ends in an
    exception other than the constructor's, every element played is one of
    the three of its pool, and each pool's index has advanced by one, modulo
    three, for every element of it that was played: the pools are used
    round robin. *)
Theorem pools_rotate :
  forall (cs : list SoundCall) (b : Browser) (w : World),
    Pooled.indices_ok w ->
    let r := pooledCalls cs b w in
    exists es,
      effects (snd r) = effects w ++ es
      /\ Forall (fun o => o = Returned tt \/ o = Thrown ConstructorThrew) (fst r)
      /\ Pooled.indices_ok (snd r)
      /\ tickIdx (snd r) = (tickIdx w + played TickSound es) mod Pooled.POOL_SIZE
      /\ dingIdx (snd r) = (dingIdx w + played DingSound es) mod Pooled.POOL_SIZE
      /\ within_pools es.
Proof.
  induction cs as [|c cs IH]; intros b w Hok; cbn zeta.
  - exists []. cbn -[Nat.modulo]. rewrite app_nil_r, !Nat.add_0_r.
    destruct Hok as [Ht Hd].
    rewrite !Nat.mod_small by assumption.
    repeat split; try assumption; constructor.
  - cbn [pooledCalls].
    destruct (pooled_call_step b w c Hok) as (es1 & He1 & Ho1 & Hok1 & Ht1 & Hd1 & Hw1).
    destruct (pooledCall c b w) as [o w1]; cbn [fst snd] in *.
    destruct (IH b w1 Hok1) as (es2 & He2 & Ho2 & Hok2 & Ht2 & Hd2 & Hw2).
    destruct (pooledCalls cs b w1) as [os w2]; cbn [fst snd] in *.
    exists (es1 ++ es2).
    assert (Hp : forall s, played s (es1 ++ es2) = played s es1 + played s es2).
    { intros s. unfold played. now rewrite filter_app, length_app. }
    repeat split.
    + now rewrite He2, He1, app_assoc.
    + constructor; assumption.
    + apply Hok2.
    + apply Hok2.
    + rewrite Ht2, Ht1, Hp, Nat.Div0.add_mod_idemp_l. f_equal; lia.
    + rewrite Hd2, Hd1, Hp, Nat.Div0.add_mod_idemp_l. f_equal; lia.
    + apply Forall_app; split; assumption.
Qed.

Lemma pools_rotate_witness :
  let b := mkBrowser (fun _ => Some suspended) (fun _ => false)
                     (fun _ => true) true in
  let r := pooledCalls [CallTick; CallTick; CallDing; CallTick; CallTick] b
                       fresh in
  exists es,
    effects (snd r) = effects fresh ++ es
    /\ Forall (fun o => o = Returned tt \/ o = Thrown ConstructorThrew) (fst r)
    /\ Pooled.indices_ok (snd r)
    /\ tickIdx (snd r) = (0 + played TickSound es) mod Pooled.POOL_SIZE
    /\ dingIdx (snd r) = (0 + played DingSound es) mod Pooled.POOL_SIZE
    /\ within_pools es.
Proof.
  intros b.
  apply (pools_rotate [CallTick; CallTick; CallDing; CallTick; CallTick] b fresh).
  split; unfold Pooled.POOL_SIZE; cbn; lia.
Defined.

End AudioMoreSpec.

(** ** Properties of the background mode and of the priming *)

Module BackgroundSpec.
Import Audio Background.
Local Open Scope nat_scope.

Ltac run_act :=
  unfold Pooled.unlock, Pooled.enableBackgroundMode,
    Pooled.disableBackgroundMode, Pooled.recoverForActiveSession,
    Fallback.unlock, Fallback.enableBackgroundMode,
    Fallback.disableBackgroundMode, Fallback.recoverForActiveSession,
    bindS, tryS, retS, getOsc, getGain, getSilentPlaying, setOsc, setGain,
    setSilentPlaying, setMuted, startKeepAlive, stopKeepAlive, unlockTone,
    playEl, pauseEl in *.

Ltac crack_act :=
  repeat (cbn in *;
          match goal with
          | |- context [match ?x with _ => _ end] =>
              is_var x;
              match type of x with
              | option _ => destruct x
              | bool => destruct x
              end
          | |- context [negb ?x] => is_var x; destruct x
          | |- context [stop ?pf ?n] => destruct (stop pf n) eqn:?
          | |- context [play ?b ?n] => destruct (play b n) eqn:?
          end);
  cbn in *.

(** *** Operations that leave the keep-alive fields alone *)

Lemma quiet_refl (v : Service) : quiet v v.
Proof. repeat split. Qed.

Lemma quiet_trans (a b c : Service) : quiet a b -> quiet b c -> quiet a c.
Proof. unfold quiet. intuition congruence. Qed.

Lemma started_app (l r : list NodeCall) :
  started (l ++ r) = started l + started r.
Proof. unfold started. now rewrite filter_app, length_app. Qed.

Lemma stop_calls_app (l r : list NodeCall) :
  stop_calls (l ++ r) = stop_calls l + stop_calls r.
Proof. unfold stop_calls. now rewrite filter_app, length_app. Qed.

Lemma lift_quiet {A} (c : M A) (pf : Platform) (v : Service) :
  quiet v (snd (lift c pf v))
  /\ muted (snd (lift c pf v)) = muted v
  /\ silentOn (snd (lift c pf v)) = silentOn v
  /\ calls (snd (lift c pf v)) = calls v.
Proof.
  unfold lift. destruct (c (browser pf) (core v)); repeat split.
Qed.

Section ForEach.
Variable R : Service -> Service -> Prop.
Variable body : Element -> Act unit.
Hypothesis R_refl : forall v, R v v.
Hypothesis R_trans : forall a b c, R a b -> R b c -> R a c.
Hypothesis body_ok :
  forall a pf v, fst (body a pf v) = Returned tt /\ R v (snd (body a pf v)).

Lemma forEach_ok (els : list Element) :
  forall pf v,
    fst (forEach els body pf v) = Returned tt
    /\ R v (snd (forEach els body pf v)).
Proof.
  induction els as [|a els IH]; intros pf v; cbn.
  - split; [reflexivity | apply R_refl].
  - unfold bindS. destruct (body_ok a pf v) as [Hr Hq].
    destruct (body a pf v) as [[[]|e] v1]; cbn in Hr, Hq; [|discriminate].
    destruct (IH pf v1) as [Hr' Hq'].
    split; [exact Hr' | eapply R_trans; eassumption].
Qed.
End ForEach.

Lemma primeOne_ok (a : Element) (pf : Platform) (v : Service) :
  let r := Pooled.primeOne a pf v in
  fst r = Returned tt
  /\ quiet v (snd r)
  /\ (forall el, muted (snd r) el
                  = if Element_eqb el a then false else muted v el)
  /\ plays (core (snd r)) = S (plays (core v))
  /\ silentOn (snd r)
     = (if play (browser pf) (plays (core v)) && Element_eqb a SilentEl
        then false else silentOn v).
Proof.
  destruct v as [w osc gain sp mu so st cl].
  unfold Pooled.primeOne, quiet, started, stop_calls. run_act. cbn.
  destruct (play (browser pf) (plays w)) eqn:Hp; cbn;
    rewrite ?filter_app, ?length_app; cbn;
    repeat split; try lia;
    try (intros el; destruct (Element_eqb el a); reflexivity).
  - destruct (Element_eqb a SilentEl); reflexivity.
Qed.

Lemma Element_eqb_sym (a b : Element) : Element_eqb a b = Element_eqb b a.
Proof. destruct a, b; cbn; try reflexivity; apply Nat.eqb_sym. Qed.

Lemma prime_list (els : list Element) :
  forall (pf : Platform) (v : Service),
    let r := forEach els Pooled.primeOne pf v in
    fst r = Returned tt
    /\ quiet v (snd r)
    /\ (forall el, muted (snd r) el
                    = if existsb (Element_eqb el) els then false
                      else muted v el)
    /\ plays (core (snd r)) = length els + plays (core v)
    /\ (existsb (Element_eqb SilentEl) els = false ->
        silentOn (snd r) = silentOn v).
Proof.
  induction els as [|a els IH]; intros pf v; cbn zeta; cbn [forEach].
  - cbn. repeat split.
  - unfold bindS.
    destruct (primeOne_ok a pf v) as (Hr & Hq & Hm & Hp & Hs).
    destruct (Pooled.primeOne a pf v) as [[[]|e] v1]; cbn [fst snd] in *;
      [|discriminate].
    destruct (IH pf v1) as (Hr' & Hq' & Hm' & Hp' & Hs').
    split; [exact Hr'|]. split; [eapply quiet_trans; eassumption|].
    split; [|split].
    + intros el. rewrite Hm', Hm. cbn [existsb].
      destruct (Element_eqb el a), (existsb (Element_eqb el) els); reflexivity.
    + rewrite Hp', Hp. cbn [length]. lia.
    + cbn [existsb]. intros H. apply orb_false_iff in H as [Ha Hels].
      rewrite Hs' by exact Hels. rewrite Hs.
      rewrite Element_eqb_sym, Ha, andb_false_r. reflexivity.
Qed.

Lemma forEach_app (body : Element -> Act unit) (l1 l2 : list Element)
      (pf : Platform) (v : Service) :
  forEach (l1 ++ l2) body pf v
  = (forEach l1 body ;;~ forEach l2 body) pf v.
Proof.
  revert v; induction l1 as [|a l1 IH]; intros v; cbn.
  - reflexivity.
  - unfold bindS in *. destruct (body a pf v) as [[[]|e] v1];
      [apply IH | reflexivity].
Qed.

Lemma prime_silent (pf : Platform) (v : Service) :
  silentOn (snd (Pooled.primeFallbackAudio pf v))
  = (if play (browser pf) (6 + plays (core v)) then false else silentOn v).
Proof.
  unfold Pooled.primeFallbackAudio.
  change Pooled.all
    with ([TickEl 0; TickEl 1; TickEl 2; DingEl 0; DingEl 1; DingEl 2]
          ++ [SilentEl]).
  rewrite forEach_app. unfold bindS at 1.
  destruct (prime_list [TickEl 0; TickEl 1; TickEl 2; DingEl 0; DingEl 1; DingEl 2]
              pf v) as (Hr1 & _ & _ & Hp1 & Hs1).
  destruct (forEach [TickEl 0; TickEl 1; TickEl 2; DingEl 0; DingEl 1; DingEl 2]
              Pooled.primeOne pf v) as [[[]|e] v1];
    cbn [fst snd] in *; [|discriminate].
  cbn [forEach]. unfold bindS at 1.
  destruct (primeOne_ok SilentEl pf v1) as (Hr2 & _ & _ & _ & Hs2).
  destruct (Pooled.primeOne SilentEl pf v1) as [[[]|e] v2];
    cbn [fst snd] in *; [|discriminate].
  cbn. rewrite Hs2, Hp1, Hs1 by reflexivity. cbn [length].
  now rewrite andb_true_r.
Qed.

(** What the pooled [primeFallbackAudio] does. *)
Lemma prime_all (pf : Platform) (v : Service) :
  let r := Pooled.primeFallbackAudio pf v in
  fst r = Returned tt
  /\ quiet v (snd r)
  /\ (forall el, muted (snd r) el
                  = if existsb (Element_eqb el) Pooled.all then false
                    else muted v el)
  /\ silentOn (snd r)
     = (if play (browser pf) (6 + plays (core v)) then false else silentOn v).
Proof.
  cbn zeta.
  destruct (prime_list Pooled.all pf v) as (Hr & Hq & Hm & _).
  repeat (split; [assumption|]).
  apply prime_silent.
Qed.

Lemma quiet_keep_alive (v v' : Service) :
  quiet v v' -> keep_alive_ok v -> keep_alive_ok v'.
Proof.
  unfold quiet, keep_alive_ok. intros (Ho & Hg & _ & Hs & Ht) [H1 H2].
  rewrite Ho, Hg, Hs, Ht. now split.
Qed.

(** *** The operations one by one *)

Lemma bindS_eq {A B} (c : Act A) (k : A -> Act B) (pf : Platform) (v : Service) :
  bindS c k pf v
  = match c pf v with
    | (Returned a, v') => k a pf v'
    | (Thrown e, v') => (Thrown e, v')
    end.
Proof. reflexivity. Qed.

Lemma lift_eq {A} (c : M A) (pf : Platform) (v : Service) :
  lift c pf v
  = (fst (c (browser pf) (core v)),
     mkService (snd (c (browser pf) (core v))) (keepAliveOsc v)
               (keepAliveGain v) (silentPlaying v) (muted v) (silentOn v)
               (stops v) (calls v)).
Proof. unfold lift. now destruct (c (browser pf) (core v)). Qed.

Lemma pooled_unlock_ok (pf : Platform) (v : Service) :
  let r := Pooled.unlock pf v in
  quiet v (snd r)
  /\ (forall el, muted v el = false -> muted (snd r) el = false)
  /\ (forall ctx w1,
        ensureContextReady (browser pf) (core v) = (Returned ctx, w1) ->
        fst r = Returned tt
        /\ (forall el, In el Pooled.all -> muted (snd r) el = false)
        /\ silentOn (snd r)
           = (if play (browser pf) (6 + plays (core v)) then false
              else silentOn v)).
Proof.
  cbn zeta. unfold Pooled.unlock. rewrite bindS_eq, lift_eq.
  destruct (AudioSpec.contained_ensure (browser pf) (core v)) as [(_ & _ & Hpl) _].
  destruct (ensureContextReady (browser pf) (core v)) as [[ctx|e] w1];
    cbn [fst snd] in *.
  - remember (mkService w1 (keepAliveOsc v) (keepAliveGain v)
                         (silentPlaying v) (muted v) (silentOn v) (stops v)
                         (calls v)) as v1 eqn:Ev1.
    assert (Hq1 : quiet v v1) by (subst v1; repeat split).
    assert (Hm1 : muted v1 = muted v) by (subst v1; reflexivity).
    assert (Hs1 : silentOn v1 = silentOn v) by (subst v1; reflexivity).
    assert (Hp1 : plays (core v1) = plays (core v)) by (subst v1; exact Hpl).
    clear Ev1.
    rewrite bindS_eq.
    set (tone := match ctx with Some c => unlockTone c | None => retS tt end).
    assert (Htone : exists v2, tone pf v1 = (Returned tt, v2)
                               /\ quiet v1 v2 /\ muted v2 = muted v1
                               /\ silentOn v2 = silentOn v1
                               /\ plays (core v2) = plays (core v1)).
    { subst tone. destruct ctx; eexists; (split; [reflexivity|]);
        unfold quiet, started, stop_calls; cbn;
        rewrite ?filter_app, ?length_app; cbn; repeat split; lia. }
    destruct Htone as (v2 & -> & Hq2 & Hm2 & Hs2 & Hp2).
    unfold tryS.
    destruct (prime_all pf v2) as (Hr & Hq & Hm & Hs).
    destruct (Pooled.primeFallbackAudio pf v2) as [[[]|e] v3];
      cbn [fst snd] in *; [|discriminate].
    split; [eauto using quiet_trans|]. split.
    + intros el Hel. rewrite Hm, Hm2, Hm1, Hel.
      now destruct (existsb (Element_eqb el) Pooled.all).
    + intros ctx' w1' E. injection E as <- <-. split; [reflexivity|]. split.
      * intros el Hin. rewrite Hm.
        assert (existsb (Element_eqb el) Pooled.all = true) as ->; [|reflexivity].
        apply existsb_exists. exists el. split; [exact Hin|].
        destruct el; cbn; auto using Nat.eqb_refl.
      * now rewrite Hs, Hs2, Hp2, Hs1, Hp1.
  - cbn. split; [repeat split|]. split; [auto|]. discriminate.
Qed.

Lemma pooled_enable_ok (pf : Platform) (v : Service) :
  let r := Pooled.enableBackgroundMode pf v in
  (keep_alive_ok v -> keep_alive_ok (snd r))
  /\ muted (snd r) = muted v
  /\ (silentPlaying v = true ->
      silentPlaying (snd r) = true /\ silentOn (snd r) = silentOn v).
Proof.
  cbn zeta. unfold Pooled.enableBackgroundMode. rewrite bindS_eq, lift_eq.
  destruct (ensureContextReady (browser pf) (core v)) as [[ctx|e] w1];
    cbn [fst snd].
  - destruct v as [w osc gain sp mu so st cl].
    unfold keep_alive_ok, started, stop_calls. run_act.
    crack_act;
      (split;
       [ intros [H1 H2]; try discriminate H2;
         rewrite ?filter_app, ?length_app; cbn; split; [lia | congruence]
       | split; [reflexivity | intros Hsp; try discriminate Hsp;
                               split; reflexivity] ]).
  - destruct v as [w osc gain sp mu so st cl]. unfold keep_alive_ok; cbn.
    split; [tauto|]. split; [reflexivity|]. intros ->. split; reflexivity.
Qed.

Lemma pooled_disable_ok (pf : Platform) (v : Service) :
  let r := Pooled.disableBackgroundMode pf v in
  fst r = Returned tt
  /\ keepAliveOsc (snd r) = None
  /\ keepAliveGain (snd r) = None
  /\ silentPlaying (snd r) = false
  /\ (silentPlaying v = true -> silentOn (snd r) = false)
  /\ core (snd r) = core v
  /\ muted (snd r) = muted v
  /\ (keep_alive_ok v -> keep_alive_ok (snd r)).
Proof.
  destruct v as [w osc gain sp mu so st cl].
  cbn zeta. unfold Pooled.disableBackgroundMode, keep_alive_ok, started,
    stop_calls. run_act.
  crack_act.
  all: do 4 (split; [reflexivity|]).
  all: split; [intros Hsp; try discriminate Hsp; reflexivity|].
  all: do 2 (split; [reflexivity|]).
  all: intros [H1 H2]; try discriminate H2.
  all: rewrite ?filter_app, ?length_app in *; cbn in *.
  all: split; [lia | congruence].
Qed.

Lemma fallback_unlock_quiet (pf : Platform) (v : Service) :
  quiet v (snd (Fallback.unlock pf v)).
Proof.
  unfold Fallback.unlock. rewrite bindS_eq, lift_eq.
  destruct (ensureContextReady (browser pf) (core v)) as [[ctx|e] w1];
    cbn [fst snd]; [|repeat split].
  destruct v as [w osc gain sp mu so st cl].
  unfold Fallback.primeFallbackAudio, Fallback.primeOne, quiet, started,
    stop_calls. cbn [forEach]. run_act.
  destruct ctx; crack_act; rewrite ?filter_app, ?length_app; cbn;
    repeat split; lia.
Qed.

Lemma fallback_enable_keeps (pf : Platform) (v : Service) :
  keep_alive_ok v -> keep_alive_ok (snd (Fallback.enableBackgroundMode pf v)).
Proof.
  unfold Fallback.enableBackgroundMode. rewrite bindS_eq, lift_eq.
  destruct (ensureContextReady (browser pf) (core v)) as [[ctx|e] w1];
    cbn [fst snd]; [|now destruct v].
  destruct v as [w osc gain sp mu so st cl].
  unfold keep_alive_ok, started, stop_calls. run_act.
  destruct ctx; crack_act.
  all: intros [H1 H2]; try discriminate H2.
  all: rewrite ?filter_app, ?length_app in *; cbn in *.
  all: split; [lia | congruence].
Qed.

Lemma fallback_disable_keeps (pf : Platform) (v : Service) :
  keep_alive_ok v -> keep_alive_ok (snd (Fallback.disableBackgroundMode pf v)).
Proof.
  destruct v as [w osc gain sp mu so st cl].
  unfold Fallback.disableBackgroundMode, keep_alive_ok, started, stop_calls.
  run_act. crack_act.
  all: intros [H1 H2]; try discriminate H2.
  all: rewrite ?filter_app, ?length_app in *; cbn in *.
  all: split; [lia | congruence].
Qed.

Lemma pooledOp_keeps (o : Op) (pf : Platform) (v : Service) :
  (keep_alive_ok v -> keep_alive_ok (snd (pooledOp o pf v)))
  /\ ((forall el, muted v el = false) ->
      forall el, muted (snd (pooledOp o pf v)) el = false).
Proof.
  destruct o; cbn [pooledOp].
  - destruct (pooled_unlock_ok pf v) as (Hq & Hm & _).
    split; [now apply quiet_keep_alive | auto].
  - destruct (pooled_enable_ok pf v) as (Hk & Hm & _).
    split; [exact Hk | now rewrite Hm].
  - destruct (pooled_disable_ok pf v) as (_ & _ & _ & _ & _ & _ & Hm & Hk).
    split; [exact Hk | now rewrite Hm].
  - unfold Pooled.recoverForActiveSession. rewrite bindS_eq.
    destruct (pooled_unlock_ok pf v) as (Hq & Hm & _).
    destruct (Pooled.unlock pf v) as [[[]|e] v1]; cbn [fst snd] in *.
    + destruct (pooled_enable_ok pf v1) as (Hk & Hm' & _).
      split; [intros H; apply Hk; now apply (quiet_keep_alive v)|].
      intros H el. rewrite Hm'. auto.
    + split; [now apply quiet_keep_alive | auto].
Qed.

Lemma fallbackOp_keeps (o : Op) (pf : Platform) (v : Service) :
  keep_alive_ok v -> keep_alive_ok (snd (fallbackOp o pf v)).
Proof.
  destruct o; cbn [fallbackOp].
  - apply quiet_keep_alive, fallback_unlock_quiet.
  - apply fallback_enable_keeps.
  - apply fallback_disable_keeps.
  - unfold Fallback.recoverForActiveSession. rewrite bindS_eq.
    pose proof (fallback_unlock_quiet pf v) as Hq.
    destruct (Fallback.unlock pf v) as [[[]|e] v1]; cbn [fst snd] in *.
    + intros H. apply fallback_enable_keeps. now apply (quiet_keep_alive v).
    + now apply quiet_keep_alive.
Qed.

(** *** The keep-alive oscillator *)

(** X16.  Whatever sequence of [unlock], [enableBackgroundMode],
    [disableBackgroundMode] and [recoverForActiveSession] the page calls and
    whatever the platform answers, in the pooled version as in the versions
    with one fallback element: every keep-alive oscillator that was started
    has had [stop()] called on it, except the one [keepAliveOsc] holds, so
    at most one is left running; and [keepAliveGain] is set exactly when
    [keepAliveOsc] is. *)
Theorem keep_alive_never_leaks :
  forall (os : list Op) (pf : Platform) (v : Service),
    keep_alive_ok v ->
    keep_alive_ok (ops pooledOp os pf v)
    /\ keep_alive_ok (ops fallbackOp os pf v).
Proof.
  induction os as [|o os IH]; intros pf v Hv; cbn [ops].
  - now split.
  - split.
    + apply IH. now apply pooledOp_keeps.
    + apply IH. now apply fallbackOp_keeps.
Qed.

Lemma keep_alive_never_leaks_witness :
  let pf := mkPlatform (mkBrowser (fun _ => Some running) (fun _ => true)
                                  (fun _ => true) true)
                       (fun _ => true) in
  keep_alive_ok (ops pooledOp [Recover; Enable; Disable; Enable] pf freshService)
  /\ keep_alive_ok
       (ops fallbackOp [Recover; Enable; Disable; Enable] pf freshService).
Proof.
  intros pf.
  apply (keep_alive_never_leaks [Recover; Enable; Disable; Enable] pf).
  split; reflexivity.
Defined.

(** *** Muted elements *)

(** X17.  In the pooled version no sequence of these operations leaves an element
    muted that was not muted before; and an [unlock] that gets past
    [ensureContextReady] leaves all seven elements unmuted, whether their
    [play()] promises were fulfilled or rejected. *)
Theorem pooled_priming_never_leaves_muted :
  forall (os : list Op) (pf : Platform) (v : Service),
    ((forall el, muted v el = false) ->
     forall el, muted (ops pooledOp os pf v) el = false)
    /\ (forall ctx w1,
          ensureContextReady (browser pf) (core v) = (Returned ctx, w1) ->
          forall el, In el Pooled.all ->
                     muted (snd (Pooled.unlock pf v)) el = false).
Proof.
  intros os pf v. split.
  - revert v. induction os as [|o os IH]; intros v Hv; cbn [ops]; [exact Hv|].
    apply IH. now apply pooledOp_keeps.
  - intros ctx w1 E el Hin.
    destruct (pooled_unlock_ok pf v) as (_ & _ & H).
    destruct (H ctx w1 E) as (_ & Hm & _). now apply Hm.
Qed.

Lemma pooled_priming_never_leaves_muted_witness :
  let pf := mkPlatform (mkBrowser (fun _ => Some suspended) (fun _ => false)
                                  (fun _ => false) true)
                       (fun _ => true) in
  muted (ops pooledOp [Unlock; Recover] pf freshService) SilentEl = false.
Proof.
  intros pf.
  destruct (pooled_priming_never_leaves_muted [Unlock; Recover] pf freshService)
    as [H _].
  apply H. reflexivity.
Defined.

(** X18.  In the versions with one fallback element per sound the loop of
    [primeFallbackAudio] has no [try] of its own: when [unlock] gets past
    [ensureContextReady] and the [play()] of the tick element is rejected,
    [unlock] still returns normally, but the tick element is left muted and
    the ding element is not primed at all. *)
Theorem fallback_priming_leaves_muted :
  forall (pf : Platform) (v : Service) (ctx : option nat) (w1 : World),
    ensureContextReady (browser pf) (core v) = (Returned ctx, w1) ->
    play (browser pf) (plays (core v)) = false ->
    let r := Fallback.unlock pf v in
    fst r = Returned tt
    /\ muted (snd r) (TickEl 0) = true
    /\ muted (snd r) (DingEl 0) = muted v (DingEl 0)
    /\ calls (snd r)
       = calls v
         ++ (match ctx with Some c => [UnlockTone c] | None => [] end)
         ++ [ElPlay (TickEl 0) false].
Proof.
  intros pf v ctx w1 E Hp. cbn zeta.
  destruct (AudioSpec.contained_ensure (browser pf) (core v)) as [(_ & _ & Hpl) _].
  unfold Fallback.unlock. rewrite bindS_eq, lift_eq, E in *. cbn [fst snd] in *.
  destruct v as [w osc gain sp mu so st cl]. cbn in Hp, Hpl.
  unfold Fallback.primeFallbackAudio, Fallback.primeOne. cbn [forEach].
  run_act. destruct ctx; cbn; rewrite Hpl, Hp; cbn;
    rewrite <- ?app_assoc; repeat split.
Qed.

Lemma fallback_priming_leaves_muted_witness :
  let pf := mkPlatform (mkBrowser (fun _ => Some running) (fun _ => true)
                                  (fun _ => false) false)
                       (fun _ => true) in
  fst (Fallback.unlock pf freshService) = Returned tt
  /\ muted (snd (Fallback.unlock pf freshService)) (TickEl 0) = true.
Proof.
  intros pf.
  destruct (fallback_priming_leaves_muted pf freshService (Some 0)
              (snd (ensureContextReady (browser pf) fresh)) eq_refl eq_refl)
    as (H1 & H2 & _).
  split; [exact H1 | exact H2].
Defined.

(** *** Switching the background mode off *)

(** X19.  [disableBackgroundMode] of the pooled version never throws, even when
    [stop()] does; it leaves both keep-alive fields null and the silent-loop
    flag false, pauses the silent element if the flag was set, and calls
    [stop()] at most once.  Called again at once it changes nothing. *)
Theorem disable_clears_the_background_mode :
  forall (pf : Platform) (v : Service),
    let r := Pooled.disableBackgroundMode pf v in
    fst r = Returned tt
    /\ keepAliveOsc (snd r) = None
    /\ keepAliveGain (snd r) = None
    /\ silentPlaying (snd r) = false
    /\ (silentPlaying v = true -> silentOn (snd r) = false)
    /\ stops (snd r) <= S (stops v)
    /\ Pooled.disableBackgroundMode pf (snd r) = (Returned tt, snd r).
Proof.
  intros pf [w osc gain sp mu so st cl]. cbn zeta.
  unfold Pooled.disableBackgroundMode. run_act. crack_act.
  all: repeat split; try lia; try discriminate.
Qed.

(** *** The silent loop *)

(** X20.  While the silent-loop flag is set, an [unlock] that gets past
    [ensureContextReady] and whose [play()] of the silent element is
    fulfilled pauses the silent element, because [primeFallbackAudio] primes
    it along with the pools, and leaves the flag set.  So does
    [recoverForActiveSession]: its [enableBackgroundMode] sees the flag and
    does not play the element again.  The loop stays paused with the flag
    saying otherwise. *)
Theorem touch_pauses_silent_loop :
  forall (pf : Platform) (v : Service) (ctx : option nat) (w1 : World),
    silentPlaying v = true ->
    ensureContextReady (browser pf) (core v) = (Returned ctx, w1) ->
    play (browser pf) (6 + plays (core v)) = true ->
    let u := snd (Pooled.unlock pf v) in
    let r := snd (Pooled.recoverForActiveSession pf v) in
    silentPlaying u = true /\ silentOn u = false
    /\ silentPlaying r = true /\ silentOn r = false.
Proof.
  intros pf v ctx w1 Hflag E Hplay. cbn zeta.
  destruct (pooled_unlock_ok pf v) as ((_ & _ & Hsp & _) & _ & H).
  destruct (H ctx w1 E) as (Hret & _ & Hso). rewrite Hplay in Hso.
  unfold Pooled.recoverForActiveSession. rewrite bindS_eq.
  destruct (Pooled.unlock pf v) as [[[]|e] u]; cbn [fst snd] in *;
    [|discriminate].
  rewrite Hflag in Hsp.
  destruct (pooled_enable_ok pf u) as (_ & _ & Hen).
  destruct (Hen Hsp) as [H1 H2].
  repeat split; congruence.
Qed.

Lemma touch_pauses_silent_loop_witness :
  let pf := mkPlatform (mkBrowser (fun _ => Some running) (fun _ => true)
                                  (fun _ => true) true)
                       (fun _ => true) in
  let v := snd (Pooled.enableBackgroundMode pf freshService) in
  silentOn v = true
  /\ silentPlaying (snd (Pooled.recoverForActiveSession pf v)) = true
  /\ silentOn (snd (Pooled.recoverForActiveSession pf v)) = false.
Proof.
  intros pf v.
  destruct (touch_pauses_silent_loop pf v (Some 0)
              (snd (ensureContextReady (browser pf) (core v)))
              eq_refl eq_refl eq_refl) as (_ & _ & H1 & H2).
  split; [reflexivity | split; [exact H1 | exact H2]].
Defined.

End BackgroundSpec.

(** ** Properties of the tone files *)

Module WavSpec.
Import Wav.
Import String.StringSyntax.
Local Delimit Scope string_scope with string.

Lemma length_put (off : nat) (b : Z) (buf : Buffer) :
  length (put off b buf) = length buf.
Proof.
  revert off; induction buf as [|x buf IH]; intros [|off]; cbn; auto.
Qed.

Lemma byteAt_put (off j : nat) (b : Z) (buf : Buffer) :
  byteAt (put off b buf) j
  = if (Nat.eqb j off && (off <? length buf)%nat)%bool then b
    else byteAt buf j.
Proof.
  unfold byteAt. revert off j; induction buf as [|x buf IH];
    intros [|off] [|j]; cbn; try reflexivity.
  - now rewrite andb_false_r.
  - rewrite IH. reflexivity.
Qed.

Lemma le16 (x : Z) :
  0 <= x < 65536 -> x mod 256 + 256 * ((x / 256) mod 256) = x.
Proof. intros H. Z.div_mod_to_equations. lia. Qed.

Lemma le32 (x : Z) :
  0 <= x < 4294967296 ->
  x mod 256 + 256 * ((x / 256) mod 256) + 65536 * ((x / 65536) mod 256)
  + 16777216 * ((x / 16777216) mod 256) = x.
Proof. intros H. Z.div_mod_to_equations. lia. Qed.

Lemma header_on_zeros (dataSize : Z) (n : nat) :
  writeHeader dataSize (repeat 0 (44 + n))
  = Some (headerBytes dataSize ++ repeat 0 n).
Proof. reflexivity. Qed.

Lemma setInt16_spec (off : nat) (v : Z) (view : Buffer) :
  (off + 2 <= length view)%nat ->
  exists out,
    setInt16 off v view = Some out
    /\ length out = length view
    /\ byteAt out off = (v mod 65536) mod 256
    /\ byteAt out (off + 1) = ((v mod 65536) / 256) mod 256
    /\ (forall j, j <> off -> j <> (off + 1)%nat -> byteAt out j = byteAt view j).
Proof.
  intros H. unfold setInt16, setUint16.
  assert ((off + 2 <=? length view)%nat = true) as -> by now apply Nat.leb_le.
  eexists; split; [reflexivity|].
  rewrite !length_put. split; [reflexivity|].
  repeat split.
  - rewrite !byteAt_put.
    assert (Nat.eqb off (off + 1) = false) as -> by (apply Nat.eqb_neq; lia).
    cbn [andb]. rewrite Nat.eqb_refl.
    assert ((off <? length view)%nat = true) as -> by (apply Nat.ltb_lt; lia).
    reflexivity.
  - rewrite byteAt_put, length_put, Nat.eqb_refl.
    assert ((off + 1 <? length view)%nat = true) as -> by (apply Nat.ltb_lt; lia).
    reflexivity.
  - intros j H1 H2. rewrite !byteAt_put.
    assert (Nat.eqb j (off + 1) = false) as -> by (apply Nat.eqb_neq; lia).
    assert (Nat.eqb j off = false) as -> by (apply Nat.eqb_neq; lia).
    reflexivity.
Qed.

Lemma writeSamples_spec (pcm : nat -> Z) (count : nat) :
  forall (i : nat) (view : Buffer),
    (44 + (i + count) * 2 <= length view)%nat ->
    exists out,
      writeSamples pcm i count view = Some out
      /\ length out = length view
      /\ (forall j, (j < 44 + i * 2)%nat -> byteAt out j = byteAt view j)
      /\ (forall k, (i <= k < i + count)%nat ->
                    byteAt out (44 + k * 2) = (pcm k mod 65536) mod 256
                    /\ byteAt out (44 + k * 2 + 1)
                       = ((pcm k mod 65536) / 256) mod 256).
Proof.
  induction count as [|count IH]; intros i view Hlen; cbn [writeSamples].
  - exists view. repeat split; lia.
  - destruct (setInt16_spec (44 + i * 2) (pcm i) view ltac:(lia))
      as (v1 & -> & Hl1 & Ha & Hb & Hother).
    cbn [andThen].
    destruct (IH (S i) v1 ltac:(lia)) as (out & -> & Hl & Hlow & Hk).
    exists out. split; [reflexivity|]. split; [congruence|]. split.
    + intros j Hj. rewrite Hlow by lia. apply Hother; lia.
    + intros k Hk'. destruct (Nat.eq_dec k i) as [->|Hne].
      * rewrite !Hlow by lia. now split.
      * apply Hk. lia.
Qed.

Lemma toneBytes_spec (scaled : Z) (pcm : nat -> Z) :
  let count := Z.to_nat (Z.max 1 scaled) in
  exists out,
    toneBytes scaled pcm = Some out
    /\ length out = (44 + count * 2)%nat
    /\ (forall j, (j < 44)%nat ->
                  byteAt out j = nth j (headerBytes (Z.max 1 scaled * 2)) 0)
    /\ (forall k, (k < count)%nat ->
                  byteAt out (44 + k * 2) = (pcm k mod 65536) mod 256
                  /\ byteAt out (44 + k * 2 + 1)
                     = ((pcm k mod 65536) / 256) mod 256).
Proof.
  cbn zeta. unfold toneBytes.
  set (c := Z.max 1 scaled).
  replace (Z.to_nat (44 + c * 2)) with (44 + Z.to_nat c * 2)%nat by lia.
  rewrite header_on_zeros. cbn [andThen].
  destruct (writeSamples_spec pcm (Z.to_nat c) 0
              (headerBytes (c * 2) ++ repeat 0 (Z.to_nat c * 2)))
    as (out & -> & Hl & Hlow & Hk).
  { rewrite length_app, repeat_length. cbn. lia. }
  exists out. split; [reflexivity|]. split; [|split].
  - rewrite Hl, length_app, repeat_length. reflexivity.
  - intros j Hj. rewrite Hlow by lia. unfold byteAt.
    apply app_nth1. cbn. lia.
  - intros k Hk'. apply Hk. lia.
Qed.

(** X21.  Whatever the duration and the samples, [createToneDataUrl] never
    writes outside its buffer, and the file it builds has 44 bytes of header
    and two bytes per sample, at least one sample.  The header is a
    consistent WAV header: the four tags are in place, the format is 16-bit
    mono PCM at 22050 Hz with the byte rate and block size that follow from
    it, and, as long as the file is shorter than 2^32 bytes, the RIFF size
    field is the file length minus 8 and the data size field the file length
    minus 44. *)
Theorem tone_file_header_is_consistent :
  forall (scaled : Z) (pcm : nat -> Z),
    exists bytes : Buffer,
      toneBytes scaled pcm = Some bytes
      /\ Z.of_nat (length bytes) = 44 + 2 * Z.max 1 scaled
      /\ map (byteAt bytes) [0; 1; 2; 3]%nat = codes "RIFF"%string
      /\ map (byteAt bytes) [8; 9; 10; 11]%nat = codes "WAVE"%string
      /\ map (byteAt bytes) [12; 13; 14; 15]%nat = codes "fmt "%string
      /\ map (byteAt bytes) [36; 37; 38; 39]%nat = codes "data"%string
      /\ getUint32 16 bytes = 16
      /\ getUint16 20 bytes = 1
      /\ getUint16 22 bytes = 1
      /\ getUint32 24 bytes = SAMPLE_RATE
      /\ getUint16 34 bytes = 16
      /\ getUint16 32 bytes * 8 = getUint16 22 bytes * getUint16 34 bytes
      /\ getUint32 28 bytes = getUint32 24 bytes * getUint16 32 bytes
      /\ (Z.of_nat (length bytes) < 4294967296 ->
          getUint32 4 bytes = Z.of_nat (length bytes) - 8
          /\ getUint32 40 bytes = Z.of_nat (length bytes) - 44).
Proof.
  intros scaled pcm.
  destruct (toneBytes_spec scaled pcm) as (out & E & Hl & Hh & _).
  exists out. split; [exact E|].
  assert (Hlen : Z.of_nat (length out) = 44 + 2 * Z.max 1 scaled)
    by (rewrite Hl; lia).
  split; [exact Hlen|].
  unfold getUint32, getUint16. cbn [map].
  rewrite !Hh by (cbn; lia).
  repeat (split; [reflexivity|]).
  intros Hsize. rewrite Hlen. cbn [nth headerBytes Nat.add].
  split.
  - rewrite le32 by lia. lia.
  - rewrite le32 by lia. lia.
Qed.

Lemma tone_file_header_is_consistent_witness :
  exists bytes : Buffer,
    toneBytes 2 (fun i => Z.of_nat i - 1) = Some bytes
    /\ getUint32 4 bytes = 48 - 8
    /\ getUint32 40 bytes = 48 - 44.
Proof.
  destruct (tone_file_header_is_consistent 2 (fun i => Z.of_nat i - 1))
    as (bytes & E & Hl & _ & _ & _ & _ & _ & _ & _ & _ & _ & _ & _ & H).
  exists bytes. split; [exact E|].
  change (44 + 2 * Z.max 1 2) with 48 in Hl. rewrite Hl in H.
  apply H. lia.
Defined.

(** X22.  Every sample that fits 16 bits is read back from the file as it was
    written: sample [k] is the little-endian two's complement number at
    bytes [44 + 2k] and [45 + 2k]. *)
Theorem tone_file_samples_read_back :
  forall (scaled : Z) (pcm : nat -> Z) (bytes : Buffer) (k : nat),
    toneBytes scaled pcm = Some bytes ->
    Z.of_nat k < Z.max 1 scaled ->
    -32768 <= pcm k < 32768 ->
    getInt16 (44 + k * 2) bytes = pcm k.
Proof.
  intros scaled pcm bytes k E Hk Hp.
  destruct (toneBytes_spec scaled pcm) as (out & E' & _ & _ & Hs).
  rewrite E in E'. injection E' as ->.
  destruct (Hs k ltac:(lia)) as [Ha Hb].
  unfold getInt16, getUint16. rewrite Ha, Hb.
  rewrite le16 by (apply Z.mod_pos_bound; lia).
  destruct (Z.ltb_spec (pcm k mod 65536) 32768);
    Z.div_mod_to_equations; lia.
Qed.

Lemma tone_file_samples_read_back_witness :
  match toneBytes 2 (fun i => Z.of_nat i - 1) with
  | Some bytes => getInt16 44 bytes = -1
  | None => False
  end.
Proof.
  destruct (toneBytes 2 (fun i => Z.of_nat i - 1)) as [bytes|] eqn:E.
  - apply (tone_file_samples_read_back 2 (fun i => Z.of_nat i - 1) bytes 0 E);
      cbn; lia.
  - vm_compute in E. discriminate E.
Defined.

End WavSpec.

(** ** The settings at their edges, and the settings on their way to the worker *)

Module EdgeSpec.
Import Worker Session.

Lemma zero_interval_state (D : Z) (w : World) (m : nat) :
  Z.of_nat m < D * 60 ->
  let s := state (ticks m (begin (mkPayload 0 D) w)) in
  intervalLength s = 0
  /\ totalTimeRemaining s = D * 60 - Z.of_nat m
  /\ -1 <= currentIntervalTime s <= 0.
Proof.
  cbn zeta. induction m as [|m IH]; intros Hm.
  - cbn [ticks]. rewrite SessionSpec.begin_state. cbn. lia.
  - destruct IH as (HL & Ht & Hc); [lia|].
    rewrite WorkerSpec.ticks_succ_r, WorkerSpec.tick_state_eq.
    unfold tick_state. rewrite Ht, HL.
    assert ((D * 60 - Z.of_nat m - 1 <=? 0) = false) as ->
        by (apply Z.leb_gt; lia).
    assert ((currentIntervalTime (state (ticks m (begin (mkPayload 0 D) w))) - 1
             <? 0) = true) as -> by (apply Z.ltb_lt; lia).
    cbn. lia.
Qed.

(** X23.  The settings at their edges, both of which the number fields accept.
    With an interval length of 0 every tick before the end of the session
    posts INTERVAL_END and leaves the interval remaining at -1.  With a
    total duration of 0 the first tick ends the session. *)
Theorem zero_settings :
  forall (p : Payload) (w : World),
    (p_intervalLength p = 0 ->
     forall m : nat,
       Z.of_nat m + 1 < p_totalDuration p * 60 ->
       posts INTERVAL_END (tick_events (ticks m (begin p w))) = true
       /\ currentIntervalTime (state (ticks (S m) (begin p w))) = -1)
    /\ (p_totalDuration p = 0 ->
        posts COMPLETED (tick_events (begin p w)) = true
        /\ totalTimeRemaining (state (tick (begin p w))) = 0).
Proof.
  intros [L D] w; cbn [p_intervalLength p_totalDuration]. split.
  - intros -> m Hm.
    destruct (zero_interval_state D w m ltac:(lia)) as (HL & Ht & Hc).
    rewrite WorkerSpec.ticks_succ_r, WorkerSpec.tick_events_eq,
      WorkerSpec.tick_state_eq.
    unfold tick_posts, tick_state. rewrite Ht, HL.
    assert ((D * 60 - Z.of_nat m - 1 <=? 0) = false) as ->
        by (apply Z.leb_gt; lia).
    assert ((currentIntervalTime (state (ticks m (begin (mkPayload 0 D) w))) - 1
             <? 0) = true) as -> by (apply Z.ltb_lt; lia).
    assert ((0 <? currentIntervalTime (state (ticks m (begin (mkPayload 0 D) w))))
            = false) as -> by (apply Z.ltb_ge; lia).
    split; reflexivity.
  - intros ->.
    rewrite WorkerSpec.tick_events_eq, WorkerSpec.tick_state_eq,
      SessionSpec.begin_state.
    split; reflexivity.
Qed.

Lemma zero_settings_witness :
  posts INTERVAL_END
    (tick_events (ticks 5 (begin (mkPayload 0 20) initial))) = true
  /\ currentIntervalTime (state (ticks 6 (begin (mkPayload 0 20) initial))) = -1.
Proof.
  destruct (zero_settings (mkPayload 0 20) initial) as [H _].
  apply (H eq_refl 5%nat). cbn; lia.
Defined.

(** X24.  Whatever the user types or slides and whichever buttons are pressed,
    after each task of the page the worker is configured with the page's
    current settings, and neither setting is negative. *)
Theorem settings_reach_the_worker :
  forall (ts : list App.Task) (y : App.Sys),
    Forall App.offered ts ->
    App.session ts App.mounted = Some y ->
    intervalLength (state (App.worker y)) = App.intervalLength (App.settings y)
    /\ totalDuration (state (App.worker y)) = App.totalDuration (App.settings y)
    /\ 0 <= App.intervalLength (App.settings y)
    /\ 0 <= App.totalDuration (App.settings y).
Proof.
  intros ts y Hok Hrun.
  apply (AppSpec.session_preserves App.offered
           (fun v => intervalLength (state (App.worker v))
                     = App.intervalLength (App.settings v)
                     /\ totalDuration (state (App.worker v))
                        = App.totalDuration (App.settings v)
                     /\ 0 <= App.intervalLength (App.settings v)
                     /\ 0 <= App.totalDuration (App.settings v)))
    with (ts := ts) (y := App.mounted); try assumption.
  - intros t v v' Ht (HL & HD & H0L & H0D) Hp.
    destruct t as [parsed|x|parsed|x|status| | | |h]; cbn in Hp, Ht.
    1-4: injection Hp as <-;
      destruct v as [s [[c t k L D] tid tms nh ob]]; cbn in *; lia.
    + injection Hp as <-.
      destruct status, v as [s [[c t k L D] tid tms nh ob]]; cbn in *; lia.
    + injection Hp as <-.
      destruct v as [s [[c t k L D] [i|] tms nh ob]]; cbn in *; lia.
    + injection Hp as <-.
      destruct v as [s [[c t k L D] [i|] tms nh ob]]; cbn in *; lia.
    + injection Hp as <-.
      destruct v as [s [[c t k L D] [i|] tms nh ob]]; cbn in *; lia.
    + destruct (active h (App.worker v)); [|discriminate].
      injection Hp as <-. cbn.
      rewrite WorkerSpec.tick_state_eq. unfold tick_state.
      destruct (_ <=? 0); [|destruct (_ <? 0)]; cbn; lia.
  - cbn. lia.
Qed.

Lemma settings_reach_the_worker_witness :
  let y := App.edit (App.typeInterval (Some (-7)) (App.settings App.mounted))
                    App.mounted in
  intervalLength (state (App.worker y)) = App.intervalLength (App.settings y)
  /\ totalDuration (state (App.worker y)) = App.totalDuration (App.settings y)
  /\ 0 <= App.intervalLength (App.settings y)
  /\ 0 <= App.totalDuration (App.settings y).
Proof.
  apply (settings_reach_the_worker [App.TypeInterval (Some (-7))]).
  - repeat constructor.
  - reflexivity.
Defined.

End EdgeSpec.
